(** * Placeholder image replacer: a shallow embedding and its properties

    The repository holds one script in two revisions:
    - [.github/scripts/placeholder_image_replacer.py] (module [Replacer] below),
    - [.github/scripts/generate_articles.py] (module [Articles] below), the
      same pipeline with a statistics record, a regex fallback for the title
      and a summary report.

    Modelling conventions.
    - Text is a Rocq [string]; documents, paths and messages are taken to be
      ASCII, so [str.lower], [str.strip] and the regex class [\s] act on the
      ASCII letters and on the ASCII white space of [str.isspace].
    - Python integers are [Z].
    - Effects are threaded through a [world]: the article files, the answers
      of the two HTTP services (indexed by call number), the log of
      [time.sleep] arguments, and the statistics record.
    - A computation ends in a value, in an [Exception] with its message, or
      in a [KeyboardInterrupt], which [except Exception] does not catch. The
      user's interrupt is taken to land in a [time.sleep], where the scripts
      spend their waiting time.
    - Left out: what is printed or logged, the temporary image files
      (saving, transcoding and removing them), and decoding errors of the
      article files. The services answer per call, whatever the request. *)

From Stdlib Require Import ZArith Ascii String Lia.
From stdpp Require Import base gmap strings pretty list.

Local Open Scope Z_scope.

(* ===================================================================== *)
(** ** Python string primitives *)
(* ===================================================================== *)

Module PyStr.

(** [s.startswith(p)] *)
Fixpoint startswith (s p : string) : bool :=
  match p, s with
  | EmptyString, _ => true
  | String _ _, EmptyString => false
  | String a p', String b s' => if Ascii.eqb a b then startswith s' p' else false
  end.

(** Scan for the first occurrence of [sub]; [i] is the index of the head
    of [s] in the original text. [None] is Python's [-1]. *)
Fixpoint find_from (sub s : string) (i : nat) : option nat :=
  if startswith s sub then Some i
  else match s with
       | EmptyString => None
       | String _ s' => find_from sub s' (S i)
       end.

(** [s[n:]] *)
Fixpoint drop (n : nat) (s : string) : string :=
  match n, s with
  | O, _ => s
  | S _, EmptyString => EmptyString
  | S n', String _ s' => drop n' s'
  end.

(** [s[:n]] *)
Fixpoint take (n : nat) (s : string) : string :=
  match n, s with
  | O, _ => EmptyString
  | S _, EmptyString => EmptyString
  | S n', String c s' => String c (take n' s')
  end.

(** [s[a:b]] for [0 <= a], [0 <= b] *)
Definition slice (a b : nat) (s : string) : string := take (b - a) (drop a s).

(** [s.find(sub, start)] *)
Definition find (sub s : string) (start : nat) : option nat :=
  if (String.length s <? start)%nat then None
  else find_from sub (drop start s) start.

(** [sub in s] *)
Definition contains (sub s : string) : bool :=
  match find_from sub s 0 with Some _ => true | None => false end.

(** [s.replace(old, new)]: every non-overlapping occurrence, left to
    right. [skip] counts the characters of a matched occurrence that are
    still to be passed over. With an empty [old] Python puts [new] before
    every character and at the end. *)
Fixpoint replace_from (old new : string) (skip : nat) (s : string) : string :=
  match s with
  | EmptyString => EmptyString
  | String c s' =>
      match skip with
      | S k => replace_from old new k s'
      | O => if startswith s old
             then new +:+ replace_from old new (String.length old - 1) s'
             else String c (replace_from old new 0 s')
      end
  end.

Fixpoint intersperse (new s : string) : string :=
  match s with
  | EmptyString => new
  | String c s' => new +:+ String c (intersperse new s')
  end.

Definition replace (old new s : string) : string :=
  match old with
  | EmptyString => intersperse new s
  | String _ _ => replace_from old new 0 s
  end.

(** [s.count(old)] for a non-empty [old]: the occurrences [replace] sees. *)
Fixpoint count_from (old : string) (skip : nat) (s : string) : nat :=
  match s with
  | EmptyString => O
  | String c s' =>
      match skip with
      | S k => count_from old k s'
      | O => if startswith s old
             then S (count_from old (String.length old - 1) s')
             else count_from old 0 s'
      end
  end.

Definition count (old s : string) : nat := count_from old 0 s.

(** [str.isspace] on ASCII: tab, LF, VT, FF, CR, the separators
    0x1c-0x1f and the blank. *)
Definition is_space (c : ascii) : bool :=
  let n := nat_of_ascii c in
  ((9 <=? n) && (n <=? 13) || (28 <=? n) && (n <=? 32))%nat.

Definition newline : ascii := ascii_of_nat 10.

Definition is_newline (c : ascii) : bool := Ascii.eqb c newline.

Fixpoint lstrip (s : string) : string :=
  match s with
  | EmptyString => EmptyString
  | String c s' => if is_space c then lstrip s' else s
  end.

Fixpoint rstrip (s : string) : string :=
  match s with
  | EmptyString => EmptyString
  | String c s' =>
      match rstrip s' with
      | EmptyString => if is_space c then EmptyString else String c EmptyString
      | r => String c r
      end
  end.

(** [s.strip()] *)
Definition strip (s : string) : string := rstrip (lstrip s).

Definition lower_char (c : ascii) : ascii :=
  let n := nat_of_ascii c in
  if ((65 <=? n) && (n <=? 90))%nat then ascii_of_nat (n + 32) else c.

(** [s.lower()] *)
Fixpoint lower (s : string) : string :=
  match s with
  | EmptyString => EmptyString
  | String c s' => String (lower_char c) (lower s')
  end.

(** [os.path.basename(p)]: what follows the last slash *)
Fixpoint basename (p : string) : string :=
  match p with
  | EmptyString => EmptyString
  | String c p' =>
      if contains "/" p' then basename p'
      else if Ascii.eqb c "/" then p' else p
  end.

(** The text up to the next line feed: what [(.+?)$] takes under
    [re.MULTILINE], where [.] is any character but LF. *)
Fixpoint line_of (s : string) : string :=
  match s with
  | EmptyString => EmptyString
  | String c s' => if is_newline c then EmptyString else String c (line_of s')
  end.

End PyStr.

(* ===================================================================== *)
(** ** The world the scripts run in *)
(* ===================================================================== *)

(** *** Constants shared by both scripts *)

Definition PLACEHOLDER_IMAGE_URL : string :=
  "https://res.cloudinary.com/dbcpfy04c/image/upload/v1743184673/images_k6zam3.png".
Definition MAX_RETRIES : nat := 5.
Definition BASE_RETRY_DELAY : Z := 5.
Definition MAX_DELAY : Z := 120.
Definition SUCCESS_DELAY : Z := 60.
Definition SUMMARY_FILE : string := "image_replacement_summary.txt".

(** *** Answers of the external services *)

(** [parts[0].inline_data] of a generation response *)
Record inline_data_t := InlineData {
  mime_type : option string;
  data : option string
}.

(** What [client.models.generate_content] does on one call. *)
Inductive gen_response :=
  | GenRaises (msg : string)                 (* the call raises *)
  | GenNoParts                               (* no candidates, or no parts *)
  | GenPart (inline : option inline_data_t). (* a first part *)

(** What [requests.post] does on one call: it raises, or it answers with
    a status code, a body text and possibly a [secure_url] in its JSON. *)
Inductive upload_response :=
  | PostRaises (msg : string)
  | Response (status_code : Z) (text : string) (secure_url : option string).

(** *** The statistics record of generate_articles.py *)

Record replaced_image := ReplacedImage {
  ri_file : string;
  ri_title : string;
  ri_image_url : string
}.

Record stats_t := Stats {
  total_files : Z;
  files_with_placeholders : Z;
  successful_replacements : Z;
  failed_replacements : Z;
  skipped_files : Z;
  replaced_images : list replaced_image
}.

Definition stats0 : stats_t := Stats 0 0 0 0 0 [].

(** *** The world *)

Record world := World {
  files : gmap string string;      (* path -> text of the files that exist *)
  unreadable : gset string;        (* paths [open(p, 'r')] fails on *)
  unwritable : gset string;        (* paths [open(p, 'w')] fails on *)
  gemini : nat -> gen_response;    (* answer to the n-th generation call *)
  gemini_calls : nat;
  cloudinary : nat -> upload_response; (* answer to the n-th upload *)
  cloudinary_calls : nat;
  slept : list Z;                  (* arguments of [time.sleep], oldest first *)
  interrupt_at : option nat;       (* the sleep call the user interrupts *)
  clock : string;                  (* [datetime.now()], formatted *)
  stats : stats_t
}.

Definition set_files (f : gmap string string) (w : world) : world :=
  World f (unreadable w) (unwritable w) (gemini w) (gemini_calls w)
        (cloudinary w) (cloudinary_calls w) (slept w) (interrupt_at w)
        (clock w) (stats w).

Definition set_gemini_calls (n : nat) (w : world) : world :=
  World (files w) (unreadable w) (unwritable w) (gemini w) n
        (cloudinary w) (cloudinary_calls w) (slept w) (interrupt_at w)
        (clock w) (stats w).

Definition set_cloudinary_calls (n : nat) (w : world) : world :=
  World (files w) (unreadable w) (unwritable w) (gemini w) (gemini_calls w)
        (cloudinary w) n (slept w) (interrupt_at w) (clock w) (stats w).

Definition set_slept (l : list Z) (w : world) : world :=
  World (files w) (unreadable w) (unwritable w) (gemini w) (gemini_calls w)
        (cloudinary w) (cloudinary_calls w) l (interrupt_at w) (clock w)
        (stats w).

Definition set_stats (s : stats_t) (w : world) : world :=
  World (files w) (unreadable w) (unwritable w) (gemini w) (gemini_calls w)
        (cloudinary w) (cloudinary_calls w) (slept w) (interrupt_at w)
        (clock w) s.

(** *** Computations: state, exceptions and the interrupt *)

Inductive outcome (A : Type) :=
  | Ret (a : A)
  | Raise (msg : string)     (* an [Exception], with [str(e)] *)
  | Interrupt.               (* [KeyboardInterrupt] *)
Arguments Ret {A} a.
Arguments Raise {A} msg.
Arguments Interrupt {A}.

(** A computation over a state [S]: the state reached is kept whatever the
    outcome, as a Python exception undoes nothing. *)
Definition Comp (S A : Type) : Type := S -> outcome A * S.

Abbreviation M := (Comp world).

Section Computations.
Context {S : Type}.

Definition ret {A} (a : A) : Comp S A := fun s => (Ret a, s).

Definition raise {A} (msg : string) : Comp S A := fun s => (Raise msg, s).

Definition bind {A B} (m : Comp S A) (k : A -> Comp S B) : Comp S B :=
  fun s => match m s with
           | (Ret a, s') => k a s'
           | (Raise e, s') => (Raise e, s')
           | (Interrupt, s') => (Interrupt, s')
           end.

(** [try: m  except Exception as e: h e] *)
Definition try_except {A} (m : Comp S A) (h : string -> Comp S A) : Comp S A :=
  fun s => match m s with
           | (Raise e, s') => h e s'
           | r => r
           end.

Definition get : Comp S S := fun s => (Ret s, s).

Definition modify (f : S -> S) : Comp S unit := fun s => (Ret tt, f s).

(** [if c: m] *)
Definition when (c : bool) (m : Comp S unit) : Comp S unit :=
  if c then m else ret tt.

End Computations.

Notation "'let!' x ':=' m 'in' k" := (bind m (fun x => k))
  (at level 10, x pattern, m at level 100, k at level 200).
Notation "m ';;;' k" := (bind m (fun _ => k))
  (at level 100, k at level 200, right associativity).

(** [for x in xs: body x], where the body may leave the loop with a value
    ([Some v]: a [break] or a [return]) or go on ([None]). *)
Fixpoint for_first {S X A} (body : X -> Comp S (option A)) (xs : list X)
  : Comp S (option A) :=
  match xs with
  | [] => ret None
  | x :: rest =>
      let! r := body x in
      match r with
      | Some v => ret (Some v)
      | None => for_first body rest
      end
  end.

(** [for x in xs: body x] *)
Fixpoint for_each {S X} (body : X -> Comp S unit) (xs : list X) : Comp S unit :=
  match xs with
  | [] => ret tt
  | x :: rest => body x;;; for_each body rest
  end.

(** [range(1, n + 1)] *)
Definition range1 (n : nat) : list nat := seq 1 n.

(** [time.sleep(d)]: the call is logged; a negative argument is a
    [ValueError]; the user's interrupt, if any, lands in one sleep. *)
Definition sleep (d : Z) : M unit :=
  fun w =>
    if d <? 0 then (Raise "sleep length must be non-negative", w)
    else
      let w' := set_slept (slept w ++ [d]) w in
      if decide (interrupt_at w = Some (length (slept w)))
      then (Interrupt, w') else (Ret tt, w').

(** *** Files *)

(** [open(p, 'r').read()] *)
Definition read_file (p : string) : M string :=
  fun w =>
    match files w !! p with
    | None => (Raise ("[Errno 2] No such file or directory: '" +:+ p +:+ "'"), w)
    | Some c =>
        if decide (p ∈ unreadable w)
        then (Raise ("[Errno 13] Permission denied: '" +:+ p +:+ "'"), w)
        else (Ret c, w)
    end.

(** [open(p, 'w').write(c)] *)
Definition write_file (p c : string) : M unit :=
  fun w =>
    if decide (p ∈ unwritable w)
    then (Raise ("[Errno 13] Permission denied: '" +:+ p +:+ "'"), w)
    else (Ret tt, set_files (<[p := c]> (files w)) w).

(** [os.path.exists(p)] *)
Definition path_exists (p : string) : M bool :=
  fun w => (Ret (bool_decide (is_Some (files w !! p))), w).

(** [stats[...] += 1] and the like *)
Definition update_stats (f : stats_t -> stats_t) : M unit :=
  modify (fun w => set_stats (f (stats w)) w).

(** *** Failure signatures *)

(** ["rate limit" in m or "quota" in m or "429" in m] on the lowered
    message: the test of the generation loop and of the batch driver. *)
Definition rate_limited (msg : string) : bool :=
  let m := PyStr.lower msg in
  PyStr.contains "rate limit" m || PyStr.contains "quota" m || PyStr.contains "429" m.

(** ["rate limit" in str(e).lower()]: the test of the upload loop. *)
Definition upload_rate_limited (msg : string) : bool :=
  PyStr.contains "rate limit" (PyStr.lower msg).

(** Truth value of a string *)
Definition truthy (s : string) : bool :=
  match s with EmptyString => false | _ => true end.

(* ===================================================================== *)
(** ** Uploading and generating (both scripts) *)
(* ===================================================================== *)

(** [upload_to_cloudinary]: one POST; 200 gives the URL, every other
    status raises an exception whose message names the failure. *)
Definition upload_to_cloudinary : M string :=
  fun w =>
    let w' := set_cloudinary_calls (S (cloudinary_calls w)) w in
    match cloudinary w (cloudinary_calls w) with
    | PostRaises msg => (Raise msg, w')
    | Response code text url =>
        if code =? 200 then
          match url with
          | Some u => (Ret u, w')
          | None => (Raise "'secure_url'", w')
          end
        else if code =? 429 then
          (Raise ("Cloudinary rate limit exceeded: " +:+ text), w')
        else if 500 <=? code then
          (Raise ("Cloudinary server error: " +:+ text), w')
        else
          (Raise ("Cloudinary upload failed with status " +:+ pretty code
                  +:+ ": " +:+ text), w')
    end.

(** [client.models.generate_content(...)] *)
Definition generate_content : M gen_response :=
  fun w =>
    let w' := set_gemini_calls (S (gemini_calls w)) w in
    match gemini w (gemini_calls w) with
    | GenRaises msg => (Raise msg, w')
    | r => (Ret r, w')
    end.

(** [retry_delay * (2 ** e)]; the attempts count from 1, so [e] is never
    negative where the loops call it. *)
Definition backoff (retry_delay : Z) (e : Z) : Z := retry_delay * 2 ^ e.

(** One turn of the upload loop. [Some url] is the [break]. *)
Definition upload_attempt_body (retry_delay : Z) (upload_attempt : nat)
  : M (option string) :=
  try_except
    (let! image_url := upload_to_cloudinary in
     if truthy image_url then ret (Some image_url)
     else
       sleep (backoff retry_delay (Z.of_nat upload_attempt - 1));;;
       ret None)
    (fun e =>
       when (upload_rate_limited e)
            (sleep (backoff retry_delay (Z.of_nat upload_attempt - 1)));;;
       ret None).

(** The upload loop: [image_url] is truthy after it exactly when the loop
    was left by [break]. *)
Definition upload_with_retries (max_retries : nat) (retry_delay : Z)
  : M (option string) :=
  for_first (upload_attempt_body retry_delay) (range1 max_retries).

(** The [except Exception as e] of the generation loop. *)
Definition generation_handler (max_retries : nat) (retry_delay : Z)
  (attempt : nat) (e : string) : M (option string) :=
  (if rate_limited e then
     when (attempt <? max_retries)%nat
          (sleep (backoff retry_delay (Z.of_nat attempt)))
   else
     when (attempt <? max_retries)%nat
          (sleep (backoff retry_delay (Z.of_nat attempt - 1))));;;
  ret None.

(** The tail of the [try] block of the generation loop: reached when
    nothing was returned and nothing raised. *)
Definition generation_fallthrough (max_retries : nat) (retry_delay : Z)
  (attempt : nat) : M (option string) :=
  when (attempt <? max_retries)%nat
       (sleep (backoff retry_delay (Z.of_nat attempt - 1)));;;
  ret None.

(** What both scripts do with a first part that carries image data: the
    temporary image files are not part of this model, so saving and
    compressing leave no trace; then the upload loop runs and a truthy URL
    is returned from the function. *)
Definition save_and_upload (max_retries : nat) (retry_delay : Z)
  : M (option string) :=
  upload_with_retries max_retries retry_delay.

(* ===================================================================== *)
(** ** YAML values and the front matter *)
(* ===================================================================== *)

(** What [yaml.safe_load] can hand back, as far as the scripts look at it:
    a mapping (keys and values by their text), a string, a sequence, or
    another scalar, of which only the truth value and the type name show. *)
Inductive yaml_doc :=
  | YNull                                   (* Python's [None] *)
  | YMap (m : gmap string string)
  | YStr (s : string)
  | YSeq (items : list string)
  | YAtom (truth : bool) (tyname : string).

Inductive yaml_result :=
  | YamlError (msg : string)                (* [yaml.YAMLError] *)
  | YamlOk (doc : yaml_doc).

(** [bool(front_matter)] *)
Definition yaml_truthy (d : yaml_doc) : bool :=
  match d with
  | YNull => false
  | YMap m => negb (bool_decide (m = ∅))
  | YStr s => truthy s
  | YSeq l => match l with [] => false | _ => true end
  | YAtom t _ => t
  end.

(** [isinstance(front_matter, dict)] *)
Definition is_dict (d : yaml_doc) : bool :=
  match d with YMap _ => true | _ => false end.

(** ['title' in front_matter] *)
Definition has_title {S} (d : yaml_doc) : Comp S bool :=
  match d with
  | YNull => raise "argument of type 'NoneType' is not iterable"
  | YMap m => ret (bool_decide (is_Some (m !! "title")))
  | YStr s => ret (PyStr.contains "title" s)
  | YSeq l => ret (bool_decide ("title" ∈ l))
  | YAtom _ ty => raise ("argument of type '" +:+ ty +:+ "' is not iterable")
  end.

(** [front_matter['title']] *)
Definition get_title {S} (d : yaml_doc) : Comp S string :=
  match d with
  | YNull => raise "'NoneType' object is not subscriptable"
  | YMap m => match m !! "title" with
              | Some t => ret t
              | None => raise "'title'"
              end
  | YStr _ => raise "string indices must be integers, not 'str'"
  | YSeq _ => raise "list indices must be integers or slices, not str"
  | YAtom _ ty => raise ("'" +:+ ty +:+ "' object is not subscriptable")
  end.

(** [not front_matter or 'title' not in front_matter] *)
Definition title_missing {S} (d : yaml_doc) : Comp S bool :=
  if negb (yaml_truthy d) then ret true
  else let! b := has_title d in ret (negb b).

(** The white space a greedy [\s*] takes at the head of [s] *)
Fixpoint leading_space (s : string) : string :=
  match s with
  | EmptyString => EmptyString
  | String c s' => if PyStr.is_space c then String c (leading_space s') else EmptyString
  end.

(** Where the front matter sits: the text must open with [---]; [p] is the
    first [---] from index 3 on. Both scripts cut the block there. *)
Definition closing_marker (content : string) : option nat :=
  if PyStr.startswith content "---" then PyStr.find "---" content 3 else None.

(* ===================================================================== *)
(** ** The environment and the ways [main] ends (both scripts) *)
(* ===================================================================== *)

(** The three credentials of the environment *)
Record environment := Environment {
  CLOUDINARY_CLOUD_NAME : option string;
  CLOUDINARY_API_KEY : option string;
  GEMINI_API_KEY : option string
}.

Definition is_set (v : option string) : bool :=
  match v with Some s => truthy s | None => false end.

(** [all([...])] over the three credentials *)
Definition configured (env : environment) : bool :=
  is_set (CLOUDINARY_CLOUD_NAME env) && is_set (CLOUDINARY_API_KEY env)
  && is_set (GEMINI_API_KEY env).

(** How [main] ended *)
Inductive ending :=
  | NotConfigured       (* a credential is missing: nothing is processed *)
  | Completed           (* the driver returned *)
  | Interrupted         (* [except KeyboardInterrupt] *)
  | Failed (msg : string). (* [except Exception as e] *)


(* ===================================================================== *)
(** ** placeholder_image_replacer.py *)
(* ===================================================================== *)

Module Replacer.

(** [generate_and_upload_image]: one turn of the generation loop.
    [Some url] is the [return image_url]. Without checks of its own, a
    part without image data, MIME type or bytes makes a library call
    raise inside the [try]. *)
Definition generation_attempt (max_retries : nat) (retry_delay : Z)
  (attempt : nat) : M (option string) :=
  try_except
    (let! response := generate_content in
     let! image_url :=
       match response with
       | GenPart None =>
           raise "'NoneType' object has no attribute 'mime_type'"
       | GenPart (Some (InlineData None _)) =>
           raise "'NoneType' object has no attribute 'lower'"
       | GenPart (Some (InlineData (Some _) None)) =>
           raise "a bytes-like object is required, not 'NoneType'"
       | GenPart (Some (InlineData (Some _) (Some _))) =>
           save_and_upload max_retries retry_delay
       | _ => ret None
       end in
     match image_url with
     | Some url => ret (Some url)
     | None => generation_fallthrough max_retries retry_delay attempt
     end)
    (generation_handler max_retries retry_delay attempt).

Definition generate_and_upload_image (title : string) (max_retries : nat)
  (retry_delay : Z) : M (option string) :=
  for_first (generation_attempt max_retries retry_delay) (range1 max_retries).

Section FrontMatter.
(** [yaml.safe_load], an external library *)
Variable safe_load : string -> yaml_result.

(** [re.search(r'^---\s*(.*?)\s*---\s*', content, re.DOTALL)]: without
    [re.MULTILINE] the anchor holds the match at index 0; the greedy
    [\s*] and the lazy group then leave in group 1 the stripped text up
    to the first later [---], and group 0 runs on over the white space
    behind it. The pair is (group 1, group 0). *)
Definition search_front_matter (content : string) : option (string * string) :=
  match closing_marker content with
  | Some p =>
      Some (PyStr.strip (PyStr.slice 3 p content),
            PyStr.take (p + 3) content
              +:+ leading_space (PyStr.drop (p + 3) content))
  | None => None
  end.

(** [extract_front_matter]: [(YNull, None)] is [(None, None)]. *)
Definition extract_front_matter (content : string) : yaml_doc * option string :=
  match search_front_matter content with
  | Some (front_matter_text, whole) =>
      match safe_load front_matter_text with
      | YamlOk front_matter => (front_matter, Some whole)
      | YamlError _ => (YNull, None)
      end
  | None => (YNull, None)
  end.

(** [replace_image_in_markdown] *)
Definition replace_image_in_markdown (md_file_path : string) : M bool :=
  try_except
    (let! content := read_file md_file_path in
     if negb (PyStr.contains PLACEHOLDER_IMAGE_URL content) then ret false
     else
       let front_matter := fst (extract_front_matter content) in
       let! missing := title_missing front_matter in
       if missing then ret false
       else
         let! title := get_title front_matter in
         let! new_image_url :=
           generate_and_upload_image title MAX_RETRIES BASE_RETRY_DELAY in
         match new_image_url with
         | None => ret false
         | Some url =>
             write_file md_file_path
               (PyStr.replace PLACEHOLDER_IMAGE_URL url content);;;
             write_file (md_file_path +:+ ".bak") content;;;
             ret true
         end)
    (fun e => raise e).

(** The local variables of [process_all_markdown_files] *)
Record locals := Locals {
  success_count : Z;
  failed_files : list string;
  current_delay : Z;
  consecutive_failures : Z
}.

Definition base_delay : Z := 3.
Definition max_delay : Z := 60.
Definition max_consecutive_failures : Z := 3.

Definition locals0 : locals := Locals 0 [] base_delay 0.

(** A computation of the file level, run inside the driver *)
Definition lift {A} (m : M A) : Comp (locals * world) A :=
  fun '(l, w) => let '(r, w') := m w in (r, (l, w')).

Definition update (f : locals -> locals) : Comp (locals * world) unit :=
  modify (fun '(l, w) => (f l, w)).

Definition local {A} (f : locals -> A) : Comp (locals * world) A :=
  fun '(l, w) => (Ret (f l), (l, w)).

(** The body of the loop over the files *)
Definition process_file (md_file : string) : Comp (locals * world) unit :=
  let file_basename := PyStr.basename md_file in
  try_except
    (let! ok := lift (replace_image_in_markdown md_file) in
     if ok : bool then
       update (fun l => Locals (success_count l + 1) (failed_files l)
                               (current_delay l) 0);;;
       lift (sleep SUCCESS_DELAY);;;
       update (fun l => Locals (success_count l) (failed_files l)
                               base_delay (consecutive_failures l))
     else
       update (fun l => Locals (success_count l)
                               (failed_files l ++ [file_basename])
                               (current_delay l)
                               (consecutive_failures l + 1));;;
       let! d := local current_delay in
       lift (sleep d))
    (fun e =>
       update (fun l => Locals (success_count l)
                               (failed_files l ++ [file_basename])
                               (current_delay l)
                               (consecutive_failures l + 1));;;
       when (rate_limited e)
            (update (fun l => Locals (success_count l) (failed_files l)
                                     (Z.min (current_delay l * 2) max_delay)
                                     (consecutive_failures l)));;;
       let! d := local current_delay in
       lift (sleep d));;;
  let! failures := local consecutive_failures in
  when (max_consecutive_failures <=? failures)
       (let! d := local current_delay in
        lift (sleep (Z.min (d * 3) 120));;;
        update (fun l => Locals (success_count l) (failed_files l)
                                (current_delay l) 0)).

(** The loop of [process_all_markdown_files] *)
Definition process_files (md_files : list string)
  : Comp (locals * world) unit :=
  for_each process_file md_files.

(** [process_all_markdown_files], on the listing [md_files] that
    [glob.glob] gave. The value is what the function prints at its
    end: [None] when no file was found, else the final variables with
    the count of successes and the list of failed files. *)
Definition process_all_markdown_files (md_files : list string)
  : M (option locals) :=
  match md_files with
  | [] => ret None
  | _ =>
      fun w =>
        match process_files md_files (locals0, w) with
        | (Ret tt, (l, w')) => (Ret (Some l), w')
        | (Raise e, (_, w')) => (Raise e, w')
        | (Interrupt, (_, w')) => (Interrupt, w')
        end
  end.

End FrontMatter.

(** What [main] does around a batch driver [driver]: both handlers only
    print. *)
Definition main_with {A} (env : environment) (driver : M A) : M ending :=
  if negb (configured env) then ret NotConfigured
  else fun w => match driver w with
                | (Ret _, w') => (Ret Completed, w')
                | (Interrupt, w') => (Ret Interrupted, w')
                | (Raise e, w') => (Ret (Failed e), w')
                end.

Definition main (safe_load : string -> yaml_result) (env : environment)
  (md_files : list string) : M ending :=
  main_with env (process_all_markdown_files safe_load md_files).

End Replacer.

(* ===================================================================== *)
(** ** generate_articles.py *)
(* ===================================================================== *)

Module Articles.

(** [generate_and_upload_image]: one turn of the generation loop, with
    the script's own checks of the first part. *)
Definition generation_attempt (max_retries : nat) (retry_delay : Z)
  (attempt : nat) : M (option string) :=
  try_except
    (let! response := generate_content in
     let! image_url :=
       match response with
       | GenPart None =>
           raise "Response does not contain valid image data"
       | GenPart (Some (InlineData None _)) =>
           raise "Response inline_data missing mime_type"
       | GenPart (Some (InlineData (Some _) None)) =>
           raise "Response inline_data missing data"
       | GenPart (Some (InlineData (Some _) (Some _))) =>
           save_and_upload max_retries retry_delay
       | _ => ret None
       end in
     match image_url with
     | Some url => ret (Some url)
     | None => generation_fallthrough max_retries retry_delay attempt
     end)
    (generation_handler max_retries retry_delay attempt).

Definition generate_and_upload_image (title : string) (max_retries : nat)
  (retry_delay : Z) : M (option string) :=
  for_first (generation_attempt max_retries retry_delay) (range1 max_retries).

(** [\s*(.+?)$] under [re.MULTILINE], at the text behind [title:]: the
    greedy [\s*] gives white space back until a character other than LF
    is left for the group, which then runs to the end of its line. *)
Fixpoint title_group (s : string) : option string :=
  match s with
  | EmptyString => None
  | String c s' =>
      if PyStr.is_space c then
        match title_group s' with
        | Some g => Some g
        | None => if PyStr.is_newline c then None else Some (PyStr.line_of s)
        end
      else Some (PyStr.line_of s)
  end.

(** [re.search(r'^title:\s*(.+?)$', content, re.MULTILINE)]: group 1 of
    the first match; [at_line_start] tells whether [^] holds at the head
    of [s]. *)
Fixpoint search_title (at_line_start : bool) (s : string) : option string :=
  match s with
  | EmptyString => None
  | String c s' =>
      match (if at_line_start && PyStr.startswith s "title:"
             then title_group (PyStr.drop 6 s) else None) with
      | Some g => Some g
      | None => search_title (PyStr.is_newline c) s'
      end
  end.

(** The stripped title the fallback finds, if any *)
Definition title_fallback (content : string) : option string :=
  match search_title true content with
  | Some g => Some (PyStr.strip g)
  | None => None
  end.

Definition inc_successful (title file url : string) (s : stats_t) : stats_t :=
  Stats (total_files s) (files_with_placeholders s)
        (successful_replacements s + 1) (failed_replacements s)
        (skipped_files s)
        (replaced_images s ++ [ReplacedImage file title url]).

Definition inc_failed (s : stats_t) : stats_t :=
  Stats (total_files s) (files_with_placeholders s)
        (successful_replacements s) (failed_replacements s + 1)
        (skipped_files s) (replaced_images s).

Definition inc_skipped (s : stats_t) : stats_t :=
  Stats (total_files s) (files_with_placeholders s)
        (successful_replacements s) (failed_replacements s)
        (skipped_files s + 1) (replaced_images s).

Definition inc_with_placeholders (s : stats_t) : stats_t :=
  Stats (total_files s) (files_with_placeholders s + 1)
        (successful_replacements s) (failed_replacements s)
        (skipped_files s) (replaced_images s).

Definition set_total_files (n : Z) (s : stats_t) : stats_t :=
  Stats n (files_with_placeholders s)
        (successful_replacements s) (failed_replacements s)
        (skipped_files s) (replaced_images s).

(** The local variables of [process_all_markdown_files] *)
Record locals := Locals {
  current_delay : Z;
  consecutive_failures : Z
}.

Definition base_delay : Z := 3.
Definition max_delay : Z := 60.
Definition max_consecutive_failures : Z := 3.

Definition locals0 : locals := Locals base_delay 0.

Definition lift {A} (m : M A) : Comp (locals * world) A :=
  fun '(l, w) => let '(r, w') := m w in (r, (l, w')).

Definition update (f : locals -> locals) : Comp (locals * world) unit :=
  modify (fun '(l, w) => (f l, w)).

Definition local {A} (f : locals -> A) : Comp (locals * world) A :=
  fun '(l, w) => (Ret (f l), (l, w)).

(** *** The summary report *)

Definition nl : string := String PyStr.newline EmptyString.

Definition render_item (i : Z) (item : replaced_image) : string :=
  "### " +:+ pretty i +:+ ". " +:+ ri_file item +:+ nl
  +:+ "- Title: " +:+ ri_title item +:+ nl
  +:+ "- Image URL: " +:+ ri_image_url item +:+ nl
  +:+ "- Preview: ![" +:+ ri_title item +:+ "](" +:+ ri_image_url item +:+ ")"
  +:+ nl +:+ nl.

Fixpoint render_items (i : Z) (items : list replaced_image) : string :=
  match items with
  | [] => EmptyString
  | item :: rest => render_item i item +:+ render_items (i + 1) rest
  end.

Definition render_summary (now : string) (s : stats_t) : string :=
  "# Image Replacement Summary" +:+ nl +:+ nl
  +:+ "Process completed at: " +:+ now +:+ nl +:+ nl
  +:+ "## Statistics" +:+ nl
  +:+ "- Total files scanned: " +:+ pretty (total_files s) +:+ nl
  +:+ "- Files with placeholder images: "
      +:+ pretty (files_with_placeholders s) +:+ nl
  +:+ "- Successful replacements: "
      +:+ pretty (successful_replacements s) +:+ nl
  +:+ "- Failed replacements: " +:+ pretty (failed_replacements s) +:+ nl
  +:+ "- Skipped files (no placeholders): " +:+ pretty (skipped_files s)
      +:+ nl +:+ nl
  +:+ "## Replaced Images" +:+ nl
  +:+ match replaced_images s with
      | [] => "No images were replaced in this run." +:+ nl
      | items => render_items 1 items
      end.

(** [create_summary_file] *)
Definition create_summary_file : M unit :=
  let! w := get in
  write_file SUMMARY_FILE (render_summary (clock w) (stats w)).

Section FrontMatter.
(** [yaml.safe_load], an external library *)
Variable safe_load : string -> yaml_result.

(** [extract_front_matter]: [(YNull, None)] is [(None, None)]. The
    mapping is handed back whether or not it has a title. *)
Definition extract_front_matter (content : string) : yaml_doc * option string :=
  if negb (PyStr.startswith content "---") then (YNull, None)
  else
    let first_marker_end := 3%nat in
    match PyStr.find "---" content first_marker_end with
    | None => (YNull, None)
    | Some second_marker_start =>
        let front_matter_text :=
          PyStr.strip (PyStr.slice first_marker_end second_marker_start content) in
        let full_front_matter := PyStr.take (second_marker_start + 3) content in
        match safe_load front_matter_text with
        | YamlOk front_matter =>
            if yaml_truthy front_matter && is_dict front_matter
            then (front_matter, Some full_front_matter)
            else (YNull, None)
        | YamlError _ => (YNull, None)
        end
    end.

(** [replace_image_in_markdown] *)
Definition replace_image_in_markdown (md_file_path : string) : M bool :=
  try_except
    (let file_basename := PyStr.basename md_file_path in
     let! found := path_exists md_file_path in
     if negb found then update_stats inc_failed;;; ret false
     else
       let! content := read_file md_file_path in
       if negb (PyStr.contains PLACEHOLDER_IMAGE_URL content)
       then update_stats inc_skipped;;; ret false
       else
         update_stats inc_with_placeholders;;;
         let front_matter := fst (extract_front_matter content) in
         let! missing := title_missing front_matter in
         let! title :=
           (if missing : bool then
              match title_fallback content with
              | Some extracted_title => ret (Some extracted_title)
              | None => update_stats inc_failed;;; ret None
              end
            else let! t := get_title front_matter in ret (Some t)) in
         match title with
         | None => ret false
         | Some title =>
             let! new_image_url :=
               generate_and_upload_image title MAX_RETRIES BASE_RETRY_DELAY in
             match new_image_url with
             | None => update_stats inc_failed;;; ret false
             | Some url =>
                 write_file md_file_path
                   (PyStr.replace PLACEHOLDER_IMAGE_URL url content);;;
                 write_file (md_file_path +:+ ".bak") content;;;
                 update_stats (inc_successful title file_basename url);;;
                 ret true
             end
         end)
    (fun e => update_stats inc_failed;;; raise e).

(** The body of the loop over the files *)
Definition process_file (md_file : string) : Comp (locals * world) unit :=
  try_except
    (let! ok := lift (replace_image_in_markdown md_file) in
     if ok : bool then
       update (fun l => Locals (current_delay l) 0);;;
       lift (sleep SUCCESS_DELAY);;;
       update (fun l => Locals base_delay (consecutive_failures l))
     else
       update (fun l => Locals (current_delay l) (consecutive_failures l + 1));;;
       let! d := local current_delay in
       lift (sleep d))
    (fun e =>
       update (fun l => Locals (current_delay l) (consecutive_failures l + 1));;;
       when (rate_limited e)
            (update (fun l => Locals (Z.min (current_delay l * 2) max_delay)
                                     (consecutive_failures l)));;;
       let! d := local current_delay in
       lift (sleep d));;;
  let! failures := local consecutive_failures in
  when (max_consecutive_failures <=? failures)
       (let! d := local current_delay in
        let extended_break := Z.min (d * 3) 120 in
        lift (sleep extended_break);;;
        update (fun l => Locals (current_delay l) 0)).

(** The loop of [process_all_markdown_files] *)
Definition process_files (md_files : list string)
  : Comp (locals * world) unit :=
  for_each process_file md_files.

(** [process_all_markdown_files], on the listing [md_files] that
    [glob.glob] gave *)
Definition process_all_markdown_files (md_files : list string) : M unit :=
  match md_files with
  | [] => ret tt
  | _ =>
      update_stats (set_total_files (Z.of_nat (length md_files)));;;
      (fun w =>
         match process_files md_files (locals0, w) with
         | (r, (_, w')) => (r, w')
         end);;;
      create_summary_file
  end.

End FrontMatter.

(** What [main] does around a batch driver [driver]: both handlers write
    the summary. *)
Definition main_with {A} (env : environment) (driver : M A) : M ending :=
  if negb (configured env) then ret NotConfigured
  else fun w => match driver w with
                | (Ret _, w') => (Ret Completed, w')
                | (Interrupt, w') =>
                    (create_summary_file;;; ret Interrupted) w'
                | (Raise e, w') =>
                    (create_summary_file;;; ret (Failed e)) w'
                end.

Definition main (safe_load : string -> yaml_result) (env : environment)
  (md_files : list string) : M ending :=
  main_with env (process_all_markdown_files safe_load md_files).

End Articles.

(* ===================================================================== *)
(** ** Predicates on runs *)
(* ===================================================================== *)

(** No interrupt is pending *)
Definition quiet (w : world) : Prop := interrupt_at w = None.

(** What the calls to the two services and the sleeps may change: the call
    counters and the sleep log, which only grows. *)
Record evolves (w w' : world) : Prop := Evolves {
  ev_files : files w' = files w;
  ev_unreadable : unreadable w' = unreadable w;
  ev_unwritable : unwritable w' = unwritable w;
  ev_gemini : gemini w' = gemini w;
  ev_cloudinary : cloudinary w' = cloudinary w;
  ev_interrupt : interrupt_at w' = interrupt_at w;
  ev_clock : clock w' = clock w;
  ev_stats : stats w' = stats w;
  ev_slept : exists l, slept w' = slept w ++ l
}.

(** The answers to which [upload_to_cloudinary] returns a truthy URL *)
Definition upload_succeeds (r : upload_response) : bool :=
  match r with
  | Response code _ (Some url) => (code =? 200) && truthy url
  | _ => false
  end.

(** Every upload is refused or fails *)
Definition uploads_fail (w : world) : Prop :=
  forall i, upload_succeeds (cloudinary w i) = false.

(** The sum of the three outcome counters of the statistics record *)
Definition tally (s : stats_t) : Z :=
  successful_replacements s + failed_replacements s + skipped_files s.

(** The success counter is the length of the list of replaced images. *)
Definition consistent (s : stats_t) : Prop :=
  successful_replacements s = Z.of_nat (length (replaced_images s)).

(** What one call does to the three outcome counters and to the list of
    replaced images, by the way the call ends. *)
Definition call_counted (o : outcome bool) (s s' : stats_t) : Prop :=
  match o with
  | Ret true =>
      successful_replacements s' = successful_replacements s + 1
      /\ failed_replacements s' = failed_replacements s
      /\ skipped_files s' = skipped_files s
      /\ exists item, replaced_images s' = replaced_images s ++ [item]
  | Ret false =>
      successful_replacements s' = successful_replacements s
      /\ replaced_images s' = replaced_images s
      /\ (failed_replacements s' = failed_replacements s + 1
          /\ skipped_files s' = skipped_files s
          \/ failed_replacements s' = failed_replacements s
             /\ skipped_files s' = skipped_files s + 1)
  | Raise _ =>
      successful_replacements s' = successful_replacements s
      /\ replaced_images s' = replaced_images s
      /\ failed_replacements s' = failed_replacements s + 1
      /\ skipped_files s' = skipped_files s
  | Interrupt =>
      successful_replacements s' = successful_replacements s
      /\ replaced_images s' = replaced_images s
      /\ failed_replacements s' = failed_replacements s
      /\ skipped_files s' = skipped_files s
  end.

(** Everything but the call counters and the sleep log is the same. *)
Definition same_store (w w' : world) : Prop :=
  files w' = files w /\ unreadable w' = unreadable w
  /\ unwritable w' = unwritable w /\ gemini w' = gemini w
  /\ cloudinary w' = cloudinary w /\ interrupt_at w' = interrupt_at w
  /\ clock w' = clock w /\ stats w' = stats w.

(** What no step of either script changes: the access rights, the answers
    of the services, the pending interrupt and the clock. *)
Definition same_access (w w' : world) : Prop :=
  unreadable w' = unreadable w /\ unwritable w' = unwritable w
  /\ gemini w' = gemini w /\ cloudinary w' = cloudinary w
  /\ interrupt_at w' = interrupt_at w /\ clock w' = clock w.

(** The file at path [q] is as it was. *)
Definition keeps (q : string) (w w' : world) : Prop :=
  files w' !! q = files w !! q.

(** A computation that keeps the relation [R] between the worlds before and
    after, however it ends *)
Definition always (R : world -> world -> Prop) {A} (m : M A) : Prop :=
  forall w o w', m w = (o, w') -> R w w'.

(** A computation that neither reads nor writes the statistics *)
Definition stat_blind {A} (m : M A) : Prop :=
  forall s w, m (set_stats s w) = ((m w).1, set_stats s (m w).2).

(** A computation that is not interrupted, and leaves no interrupt pending,
    whenever none is pending; it may change files and statistics. *)
Definition calm {A} (m : M A) : Prop :=
  forall w, quiet w -> exists o w', m w = (o, w') /\ o <> Interrupt /\ quiet w'.

(** A computation that ends with a value whenever no interrupt is pending,
    touching only the counters and the sleep log *)
Definition returns {A} (m : M A) : Prop :=
  forall w, quiet w -> exists a w', m w = (Ret a, w') /\ evolves w w'.

(** The same, but it may also raise *)
Definition settles {A} (m : M A) : Prop :=
  forall w, quiet w ->
    exists o w', m w = (o, w') /\ o <> Interrupt /\ evolves w w'.

(* ===================================================================== *)
(** ** The batch driver as the specification words it *)
(* ===================================================================== *)

(** Section 4.3 of the specification: after a success, a fixed pause, the
    delay back at its base and no failure counted; after a failure, one
    more failure counted and a pause of the current delay, which is first
    doubled up to its cap when an exception has a rate-limit signature;
    at three failures, a pause of [min(current_delay*3, 120)] and the
    count back at zero. The value is (delay, failures, pauses). *)
Definition driver_transition (current_delay failures : Z) (o : outcome bool)
  : Z * Z * list Z :=
  let '(delay, count, pause) :=
    match o with
    | Ret true => (3, 0, SUCCESS_DELAY)
    | Ret false => (current_delay, failures + 1, current_delay)
    | Raise e =>
        let delay := if rate_limited e then Z.min (current_delay * 2) 60
                     else current_delay in
        (delay, failures + 1, delay)
    | Interrupt => (current_delay, failures, 0)
    end in
  if 3 <=? count then (delay, 0, [pause; Z.min (delay * 3) 120])
  else (delay, count, [pause]).

(* ===================================================================== *)
(** ** Sample data for the examples *)
(* ===================================================================== *)

Module Sample.

Definition nl : string := Articles.nl.

(** What [yaml.safe_load] gives on the front matter texts used below;
    any other text is taken as a YAML error. *)
Definition safe_load (text : string) : yaml_result :=
  if String.eqb text "title: Foo" then YamlOk (YMap {["title" := "Foo"]})
  else if String.eqb text "author: Bar" then YamlOk (YMap {["author" := "Bar"]})
  else if String.eqb text "" then YamlOk YNull
  else YamlError "could not parse".

Definition env : environment :=
  Environment (Some "cloud") (Some "key") (Some "gemini-key").

(** The document of the specification's example, with the real sentinel *)
Definition doc_foo : string :=
  "---" +:+ nl +:+ "title: Foo" +:+ nl +:+ "---" +:+ nl
  +:+ "See ![img](" +:+ PLACEHOLDER_IMAGE_URL +:+ ")".

(** The same with the sentinel twice *)
Definition doc_twice : string :=
  doc_foo +:+ nl +:+ "and ![again](" +:+ PLACEHOLDER_IMAGE_URL +:+ ")".

(** A document without the sentinel *)
Definition doc_plain : string :=
  "---" +:+ nl +:+ "title: Foo" +:+ nl +:+ "---" +:+ nl +:+ "No image here.".

(** A mapping without a title *)
Definition doc_no_title : string :=
  "---" +:+ nl +:+ "author: Bar" +:+ nl +:+ "---" +:+ nl
  +:+ "See ![img](" +:+ PLACEHOLDER_IMAGE_URL +:+ ")".

(** No front matter delimiters, but a [title:] line *)
Definition doc_bare_title : string :=
  "title: Foo" +:+ nl +:+ "See ![img](" +:+ PLACEHOLDER_IMAGE_URL +:+ ")".

Definition new_url : string := "https://host/new.png".

Definition image : gen_response :=
  GenPart (Some (InlineData (Some "image/png") (Some "bytes"))).

(** A world with one article at [generated-articles/a.md], where every
    generation call gives an image and every upload answers [answer]. *)
Definition world_of (content : string) (answer : upload_response) : world :=
  World {["generated-articles/a.md" := content]} ∅ ∅
        (fun _ => image) 0 (fun _ => answer) 0 [] None
        "2025-01-01 00:00:00" stats0.

Definition ok_answer : upload_response := Response 200 "" (Some new_url).
Definition rate_limit_answer : upload_response := Response 429 "slow down" None.

Definition a_md : string := "generated-articles/a.md".

(** A world without any file *)
Definition empty_world : world :=
  World ∅ ∅ ∅ (fun _ => image) 0 (fun _ => ok_answer) 0 [] None
        "2025-01-01 00:00:00" stats0.

(** A world where every generation call is refused for quota and every
    upload is answered 429 *)
Definition throttled_world : world :=
  World ∅ ∅ ∅ (fun _ => GenRaises "Quota exceeded") 0
        (fun _ => rate_limit_answer) 0 [] None "2025-01-01 00:00:00" stats0.

(** A world whose only article lacks the sentinel, and where the user
    interrupts the first pause *)
Definition interrupted_world : world :=
  World {["generated-articles/a.md" := doc_plain]} ∅ ∅
        (fun _ => image) 0 (fun _ => ok_answer) 0 [] (Some 0%nat)
        "2025-01-01 00:00:00" stats0.

End Sample.

(** Further sample worlds *)
Module Sample2.

(** Every generation call gives an image, every upload is answered 429. *)
Definition throttled_image_world : world :=
  World ∅ ∅ ∅ (fun _ => Sample.image) 0 (fun _ => Sample.rate_limit_answer) 0
        [] None "2025-01-01 00:00:00" stats0.

(** Every generation call gives an image, every upload is answered 503. *)
Definition server_error_world : world :=
  World ∅ ∅ ∅ (fun _ => Sample.image) 0
        (fun _ => Response 503 "Service Unavailable" None) 0
        [] None "2025-01-01 00:00:00" stats0.

(** Two articles with the sentinel; every upload answers [answer]. *)
Definition two_articles (answer : upload_response) : world :=
  World {["generated-articles/a.md" := Sample.doc_foo;
          "generated-articles/b.md" := Sample.doc_twice]} ∅ ∅
        (fun _ => Sample.image) 0 (fun _ => answer) 0 [] None
        "2025-01-01 00:00:00" stats0.

(** One article with the sentinel, whose backup path cannot be written *)
Definition locked_backup_world : world :=
  World {["generated-articles/a.md" := Sample.doc_foo]} ∅
        {["generated-articles/a.md.bak"]}
        (fun _ => Sample.image) 0 (fun _ => Sample.ok_answer) 0 [] None
        "2025-01-01 00:00:00" stats0.

End Sample2.

(* ===================================================================== *)
(** ** Budgets of calls and of waiting time *)
(* ===================================================================== *)

(** The seconds asked of [time.sleep] so far *)
Definition total_sleep (w : world) : Z := foldr Z.add 0 (slept w).

(** The world [w'] is [w] after at most [g] generation calls, [u] uploads
    and [t] seconds of sleep; none of the three ever goes down. *)
Definition spent (g u : nat) (t : Z) (w w' : world) : Prop :=
  (gemini_calls w <= gemini_calls w' <= gemini_calls w + g)%nat
  /\ (cloudinary_calls w <= cloudinary_calls w' <= cloudinary_calls w + u)%nat
  /\ total_sleep w <= total_sleep w' <= total_sleep w + t.

(** A computation that stays within the budget, however it ends *)
Definition spends (g u : nat) (t : Z) {A} (m : M A) : Prop :=
  forall w o w', m w = (o, w') -> spent g u t w w'.

(** A computation that never ends in an exception *)
Definition never_raises {A} (m : M A) : Prop :=
  forall w o w', m w = (o, w') -> forall e, o <> Raise e.

(** [sum(xs)] *)
Definition sum_Z (xs : list Z) : Z := foldr Z.add 0 xs.

(** The longest the upload loop can sleep: a pause after each attempt *)
Definition upload_budget (max_retries : nat) (retry_delay : Z) : Z :=
  sum_Z (map (fun j => backoff retry_delay (Z.of_nat j - 1)) (range1 max_retries)).

(** The longest one turn of the generation loop can sleep: either the
    generation fails and the longer pause follows, or the upload loop runs
    dry and the shorter pause follows; no pause follows the last turn. *)
Definition attempt_budget (max_retries : nat) (retry_delay : Z) (k : nat) : Z :=
  let last := negb (k <? max_retries)%nat in
  Z.max (if last then 0 else backoff retry_delay (Z.of_nat k))
        (upload_budget max_retries retry_delay
         + (if last then 0 else backoff retry_delay (Z.of_nat k - 1))).

Definition generation_budget (max_retries : nat) (retry_delay : Z) : Z :=
  sum_Z (map (attempt_budget max_retries retry_delay) (range1 max_retries)).

(** The answers of the upload service stay what they are, and the count of
    uploads does not go down. *)
Definition upload_order (w w' : world) : Prop :=
  cloudinary w' = cloudinary w /\ (cloudinary_calls w <= cloudinary_calls w')%nat.

(** What a call that did not return [True] may have done to the files:
    nothing, or, when it raised because the backup could not be written,
    the rewriting of the article. *)
Definition files_after_failure (p : string) (o : outcome bool) (w w' : world)
  : Prop :=
  files w' = files w
  \/ exists e url content,
       o = Raise e /\ files w !! p = Some content
       /\ (p +:+ ".bak" ∈ unwritable w) /\ (p ∉ unwritable w)
       /\ files w' = <[p := PyStr.replace PLACEHOLDER_IMAGE_URL url content]>
                       (files w).

(** The character [c] occurs in [s]. *)
Fixpoint has_char (c : ascii) (s : string) : bool :=
  match s with
  | EmptyString => false
  | String a s' => Ascii.eqb a c || has_char c s'
  end.

(** The sleep log only grows. *)
Definition log_grows (w w' : world) : Prop := slept w `prefix_of` slept w'.

(* ===================================================================== *)
(** ** The string primitives on small inputs *)
(* ===================================================================== *)

Example startswith_ex : PyStr.startswith "---abc" "---" = true.
Proof. reflexivity. Qed.

Example find_ex : PyStr.find "---" ("---" +:+ "a---b") 3 = Some 4%nat.
Proof. reflexivity. Qed.

Example find_none_ex : PyStr.find "---" "-----" 3 = None.
Proof. reflexivity. Qed.

Example replace_ex : PyStr.replace "ab" "X" "cababab-a" = "cXXX-a".
Proof. reflexivity. Qed.

Example replace_overlap_ex : PyStr.replace "aa" "b" "aaaaa" = "bba".
Proof. reflexivity. Qed.

Example replace_empty_ex : PyStr.replace "" "X" "abc" = "XaXbXcX".
Proof. reflexivity. Qed.

Example count_ex : PyStr.count "aa" "aaaaa" = 2%nat.
Proof. reflexivity. Qed.

Example strip_ex : PyStr.strip "  a b  " = "a b".
Proof. reflexivity. Qed.

Example lower_ex : PyStr.lower "Rate LIMIT 429" = "rate limit 429".
Proof. reflexivity. Qed.

Example basename_ex : PyStr.basename "generated-articles/a.md" = "a.md".
Proof. reflexivity. Qed.


(* ===================================================================== *)
(** ** Running computations *)
(* ===================================================================== *)

Lemma evolves_refl w : evolves w w.
Proof. split; try reflexivity. exists []. by rewrite app_nil_r. Qed.

Lemma evolves_trans w1 w2 w3 : evolves w1 w2 -> evolves w2 w3 -> evolves w1 w3.
Proof.
  intros [] []. split; try congruence.
  destruct ev_slept0 as [l1 H1], ev_slept1 as [l2 H2].
  exists (l1 ++ l2). by rewrite H2, H1, app_assoc.
Qed.

Lemma evolves_quiet w w' : evolves w w' -> quiet w -> quiet w'.
Proof. unfold quiet. intros [] ?. congruence. Qed.

Lemma backoff_nonneg d e : 0 <= d -> 0 <= backoff d e.
Proof. intros. unfold backoff. apply Z.mul_nonneg_nonneg; [done|]. apply Z.pow_nonneg. lia. Qed.

Lemma sleep_quiet d w :
  0 <= d -> quiet w -> sleep d w = (Ret tt, set_slept (slept w ++ [d]) w).
Proof.
  intros Hd Hq. unfold sleep. destruct (Z.ltb_spec d 0); [lia|].
  rewrite Hq. by destruct (decide _).
Qed.

Lemma sleep_evolves d w : evolves w (set_slept (slept w ++ [d]) w).
Proof. split; try reflexivity. by exists [d]. Qed.

Lemma sleep_negative d w :
  d < 0 -> sleep d w = (Raise "sleep length must be non-negative", w).
Proof. intros Hd. unfold sleep. by destruct (Z.ltb_spec d 0); [|lia]. Qed.

Lemma returns_settles {A} (m : M A) : returns m -> settles m.
Proof.
  intros H w Hq. destruct (H w Hq) as (a & w' & -> & Hev).
  by exists (Ret a), w'.
Qed.

Lemma returns_ret {A} (a : A) : returns (ret a).
Proof. intros w _. exists a, w. split; [done | apply evolves_refl]. Qed.

Lemma settles_raise {A} e : settles (@raise world A e).
Proof. intros w _. exists (Raise e), w. split_and!; [done..| apply evolves_refl]. Qed.

Lemma returns_bind {A B} (m : M A) (k : A -> M B) :
  returns m -> (forall a, returns (k a)) -> returns (bind m k).
Proof.
  intros Hm Hk w Hq. destruct (Hm w Hq) as (a & w1 & E1 & Hev1).
  destruct (Hk a w1 (evolves_quiet _ _ Hev1 Hq)) as (b & w2 & E2 & Hev2).
  exists b, w2. unfold bind. rewrite E1. eauto using evolves_trans.
Qed.

Lemma settles_bind {A B} (m : M A) (k : A -> M B) :
  settles m -> (forall a, settles (k a)) -> settles (bind m k).
Proof.
  intros Hm Hk w Hq. destruct (Hm w Hq) as (o & w1 & E1 & Hni & Hev1).
  unfold bind. rewrite E1. destruct o as [a|e|]; [| |done].
  - destruct (Hk a w1 (evolves_quiet _ _ Hev1 Hq)) as (o2 & w2 & E2 & Hni2 & Hev2).
    exists o2, w2. eauto using evolves_trans.
  - by exists (Raise e), w1.
Qed.

Lemma returns_try {A} (m : M A) (h : string -> M A) :
  settles m -> (forall e, returns (h e)) -> returns (try_except m h).
Proof.
  intros Hm Hh w Hq. destruct (Hm w Hq) as (o & w1 & E1 & Hni & Hev1).
  unfold try_except. rewrite E1. destruct o as [a|e|]; [| |done].
  - by exists a, w1.
  - destruct (Hh e w1 (evolves_quiet _ _ Hev1 Hq)) as (b & w2 & E2 & Hev2).
    exists b, w2. eauto using evolves_trans.
Qed.

Lemma settles_sleep d : settles (sleep d).
Proof.
  intros w Hq. destruct (Z.lt_ge_cases d 0).
  - rewrite sleep_negative by done. eexists _, _. split_and!; [done..|apply evolves_refl].
  - rewrite sleep_quiet by done. eexists _, _. split_and!; [done..|apply sleep_evolves].
Qed.

Lemma returns_sleep d : 0 <= d -> returns (sleep d).
Proof.
  intros Hd w Hq. rewrite sleep_quiet by done.
  eexists _, _. split; [done | apply sleep_evolves].
Qed.

Lemma returns_when c (m : M unit) : returns m -> returns (when c m).
Proof. destruct c; [done | intros _; apply returns_ret]. Qed.

Lemma returns_for_first {X A} (body : X -> M (option A)) xs :
  (forall x, returns (body x)) -> returns (for_first body xs).
Proof.
  intros Hb. induction xs as [|x xs IH]; simpl.
  - apply returns_ret.
  - apply returns_bind; [apply Hb|]. intros [v|]; [apply returns_ret | apply IH].
Qed.

Lemma settles_upload : settles upload_to_cloudinary.
Proof.
  intros w Hq. unfold upload_to_cloudinary.
  assert (evolves w (set_cloudinary_calls (S (cloudinary_calls w)) w)) as Hev.
  { split; try reflexivity. exists []. by rewrite app_nil_r. }
  destruct (cloudinary w (cloudinary_calls w)) as [msg|code text [u|]];
    repeat case_match; eexists _, _; split_and!; done.
Qed.

Lemma settles_generate_content : settles generate_content.
Proof.
  intros w Hq. unfold generate_content.
  assert (evolves w (set_gemini_calls (S (gemini_calls w)) w)) as Hev.
  { split; try reflexivity. exists []. by rewrite app_nil_r. }
  destruct (gemini w (gemini_calls w)); eexists _, _; split_and!; done.
Qed.

(** The upload loop takes every upload error in: it never raises. *)
Lemma returns_upload_attempt_body retry_delay j :
  0 <= retry_delay -> returns (upload_attempt_body retry_delay j).
Proof.
  intros Hd. unfold upload_attempt_body. apply returns_try.
  - apply settles_bind; [apply settles_upload|]. intros url.
    destruct (truthy url); [apply returns_settles, returns_ret|].
    apply settles_bind; [apply settles_sleep|]. intros _.
    apply returns_settles, returns_ret.
  - intros e. apply returns_bind; [|intros _; apply returns_ret].
    apply returns_when, returns_sleep, backoff_nonneg, Hd.
Qed.

Lemma returns_upload_with_retries max_retries retry_delay :
  0 <= retry_delay -> returns (upload_with_retries max_retries retry_delay).
Proof.
  intros Hd. apply returns_for_first. intros j.
  by apply returns_upload_attempt_body.
Qed.

Lemma returns_generation_handler max_retries retry_delay attempt e :
  0 <= retry_delay ->
  returns (generation_handler max_retries retry_delay attempt e).
Proof.
  intros Hd. unfold generation_handler.
  apply returns_bind; [|intros _; apply returns_ret].
  destruct (rate_limited e); apply returns_when, returns_sleep, backoff_nonneg, Hd.
Qed.

Lemma returns_generation_fallthrough max_retries retry_delay attempt :
  0 <= retry_delay ->
  returns (generation_fallthrough max_retries retry_delay attempt).
Proof.
  intros Hd. unfold generation_fallthrough.
  apply returns_bind; [|intros _; apply returns_ret].
  apply returns_when, returns_sleep, backoff_nonneg, Hd.
Qed.

Lemma returns_generation_attempt_articles max_retries retry_delay attempt :
  0 <= retry_delay ->
  returns (Articles.generation_attempt max_retries retry_delay attempt).
Proof.
  intros Hd. unfold Articles.generation_attempt. apply returns_try.
  - apply settles_bind; [apply settles_generate_content|]. intros resp.
    apply settles_bind.
    + destruct resp as [?| |[[[?|] [?|]]|]];
        try apply settles_raise; try apply returns_settles, returns_ret.
      by apply returns_settles, returns_upload_with_retries.
    + intros [url|]; apply returns_settles;
        [apply returns_ret | by apply returns_generation_fallthrough].
  - intros e. by apply returns_generation_handler.
Qed.

(** The two scripts differ in how a part without image data fails, not in
    what follows: none of the messages involved is a rate-limit one. *)
Lemma generation_attempts_agree max_retries retry_delay attempt w :
  Replacer.generation_attempt max_retries retry_delay attempt w
  = Articles.generation_attempt max_retries retry_delay attempt w.
Proof.
  unfold Replacer.generation_attempt, Articles.generation_attempt,
    try_except, bind.
  destruct (generate_content w) as [[[?| |[[[?|] [?|]]|]]|e|] w1]; try done.
Qed.

Lemma generate_and_upload_agree title max_retries retry_delay w :
  Replacer.generate_and_upload_image title max_retries retry_delay w
  = Articles.generate_and_upload_image title max_retries retry_delay w.
Proof.
  unfold Replacer.generate_and_upload_image, Articles.generate_and_upload_image.
  generalize (range1 max_retries). intros ks. revert w.
  induction ks as [|k ks IH]; intros w; [done|]. simpl. unfold bind.
  rewrite generation_attempts_agree.
  destruct (Articles.generation_attempt _ _ _ _) as [[[?|]|?|] ?]; done.
Qed.

(** [generate_and_upload_image] never raises: whatever the two services
    answer, it ends with a URL or with [None]. *)
Lemma returns_generate_articles title max_retries retry_delay :
  0 <= retry_delay ->
  returns (Articles.generate_and_upload_image title max_retries retry_delay).
Proof.
  intros Hd. apply returns_for_first. intros k.
  by apply returns_generation_attempt_articles.
Qed.

Lemma returns_generate_replacer title max_retries retry_delay :
  0 <= retry_delay ->
  returns (Replacer.generate_and_upload_image title max_retries retry_delay).
Proof.
  intros Hd w Hq. rewrite generate_and_upload_agree.
  by apply returns_generate_articles.
Qed.

(* ===================================================================== *)
(** ** Backoff inside [generate_and_upload_image] *)
(* ===================================================================== *)

Lemma rate_limit_message text :
  upload_rate_limited ("Cloudinary rate limit exceeded: " +:+ text) = true.
Proof. reflexivity. Qed.

(** After the handler of the generation loop: one sleep before the next
    attempt, none after the last. *)
Lemma generation_handler_sleeps max_retries retry_delay k e w :
  0 <= retry_delay -> quiet w ->
  exists w',
    generation_handler max_retries retry_delay k e w = (Ret None, w')
    /\ evolves w w'
    /\ slept w' = slept w ++
         (if (k <? max_retries)%nat
          then [retry_delay * 2 ^ (Z.of_nat k - 1 + (if rate_limited e then 1 else 0))]
          else []).
Proof.
  intros Hd Hq. unfold generation_handler, bind, when, ret.
  destruct (rate_limited e), (k <? max_retries)%nat; simpl.
  - rewrite sleep_quiet by (try apply backoff_nonneg; done).
    eexists. split_and!; [done | apply sleep_evolves |].
    simpl. unfold backoff. do 4 f_equal. lia.
  - eexists. split_and!; [done | apply evolves_refl | by rewrite app_nil_r].
  - rewrite sleep_quiet by (try apply backoff_nonneg; done).
    eexists. split_and!; [done | apply sleep_evolves |].
    simpl. unfold backoff. do 4 f_equal. lia.
  - eexists. split_and!; [done | apply evolves_refl | by rewrite app_nil_r].
Qed.

Lemma generation_fallthrough_sleeps max_retries retry_delay k w :
  0 <= retry_delay -> quiet w ->
  exists w',
    generation_fallthrough max_retries retry_delay k w = (Ret None, w')
    /\ evolves w w'
    /\ slept w' = slept w ++
         (if (k <? max_retries)%nat
          then [retry_delay * 2 ^ (Z.of_nat k - 1)] else []).
Proof.
  intros Hd Hq. unfold generation_fallthrough, bind, when, ret.
  destruct (k <? max_retries)%nat; simpl.
  - rewrite sleep_quiet by (try apply backoff_nonneg; done).
    eexists. split_and!; [done | apply sleep_evolves | done].
  - eexists. split_and!; [done | apply evolves_refl | by rewrite app_nil_r].
Qed.

(** One turn of the upload loop, by what the upload did *)
Lemma upload_attempt_sleeps retry_delay j w o w1 :
  0 <= retry_delay -> quiet w ->
  upload_to_cloudinary w = (o, w1) ->
  exists w2,
    upload_attempt_body retry_delay j w
    = (Ret match o with
           | Ret url => if truthy url then Some url else None
           | _ => None
           end, w2)
    /\ slept w2 = slept w ++
         match o with
         | Ret url => if truthy url then [] else [retry_delay * 2 ^ (Z.of_nat j - 1)]
         | Raise e => if upload_rate_limited e
                      then [retry_delay * 2 ^ (Z.of_nat j - 1)] else []
         | Interrupt => []
         end.
Proof.
  intros Hd Hq E.
  destruct (settles_upload w Hq) as (o' & w1' & E' & Hni & Hev).
  rewrite E in E'. injection E' as <- <-.
  pose proof (evolves_quiet _ _ Hev Hq) as Hq1.
  assert (slept w1 = slept w) as Hs.
  { revert E. unfold upload_to_cloudinary.
    repeat case_match; intros [= <- <-]; done. }
  unfold upload_attempt_body, try_except, bind, when, ret. rewrite E.
  destruct o as [url|e|]; [| |done].
  - destruct (truthy url).
    + eexists. split; [done|]. by rewrite Hs, app_nil_r.
    + rewrite sleep_quiet by (try apply backoff_nonneg; done).
      eexists. split; [done|]. simpl. by rewrite Hs.
  - destruct (upload_rate_limited e).
    + rewrite sleep_quiet by (try apply backoff_nonneg; done).
      eexists. split; [done|]. simpl. by rewrite Hs.
    + eexists. split; [done|]. by rewrite Hs, app_nil_r.
Qed.

Lemma generate_content_raises w msg :
  gemini w (gemini_calls w) = GenRaises msg ->
  generate_content w = (Raise msg, set_gemini_calls (S (gemini_calls w)) w).
Proof. intros E. unfold generate_content. by rewrite E. Qed.

Lemma generate_content_returns w r :
  gemini w (gemini_calls w) = r -> (forall msg, r <> GenRaises msg) ->
  generate_content w = (Ret r, set_gemini_calls (S (gemini_calls w)) w).
Proof.
  intros E Hr. unfold generate_content. rewrite E.
  destruct r; [by destruct (Hr msg) | done..].
Qed.

Section GenerationAttempt.
Variables (max_retries : nat) (retry_delay : Z) (k : nat) (w : world).
Hypothesis delay_nonneg : 0 <= retry_delay.
Hypothesis no_interrupt : quiet w.

(** The sleeps the generation loop adds after a failed attempt [k] *)
Let outer (rate : bool) : list Z :=
  if (k <? max_retries)%nat
  then [retry_delay * 2 ^ (Z.of_nat k - 1 + (if rate then 1 else 0))]
  else [].

Lemma called_quiet : quiet (set_gemini_calls (S (gemini_calls w)) w).
Proof. exact no_interrupt. Qed.

Lemma articles_attempt_raises msg :
  gemini w (gemini_calls w) = GenRaises msg ->
  exists w', Articles.generation_attempt max_retries retry_delay k w = (Ret None, w')
             /\ slept w' = slept w ++ outer (rate_limited msg).
Proof.
  intros E. unfold Articles.generation_attempt, try_except, bind.
  rewrite (generate_content_raises _ _ E).
  destruct (generation_handler_sleeps max_retries retry_delay k msg _
              delay_nonneg called_quiet) as (w' & -> & _ & Hs).
  by exists w'.
Qed.

Lemma articles_attempt_no_parts :
  gemini w (gemini_calls w) = GenNoParts ->
  exists w', Articles.generation_attempt max_retries retry_delay k w = (Ret None, w')
             /\ slept w' = slept w ++ outer false.
Proof.
  intros E. unfold Articles.generation_attempt, try_except, bind.
  rewrite (generate_content_returns _ _ E) by done. simpl.
  destruct (generation_fallthrough_sleeps max_retries retry_delay k _
              delay_nonneg called_quiet) as (w' & -> & _ & Hs).
  exists w'. split; [done|]. rewrite Hs. subst outer. simpl.
  by rewrite Z.add_0_r.
Qed.

(** An image came, and the upload loop ended without a URL in [w1]. *)
Lemma articles_attempt_upload_failed mt d w1 :
  gemini w (gemini_calls w) = GenPart (Some (InlineData (Some mt) (Some d))) ->
  upload_with_retries max_retries retry_delay
    (set_gemini_calls (S (gemini_calls w)) w) = (Ret None, w1) ->
  exists w', Articles.generation_attempt max_retries retry_delay k w = (Ret None, w')
             /\ slept w' = slept w1 ++ outer false.
Proof.
  intros E Hup. unfold Articles.generation_attempt, try_except, bind.
  rewrite (generate_content_returns _ _ E) by done. simpl.
  unfold save_and_upload. rewrite Hup.
  destruct (returns_upload_with_retries max_retries retry_delay delay_nonneg
              _ called_quiet) as (a & w1' & Hup' & Hev).
  rewrite Hup in Hup'. injection Hup' as <- <-.
  destruct (generation_fallthrough_sleeps max_retries retry_delay k w1
              delay_nonneg (evolves_quiet _ _ Hev called_quiet))
    as (w' & -> & _ & Hs).
  exists w'. split; [done|]. rewrite Hs. subst outer. simpl.
  by rewrite Z.add_0_r.
Qed.

End GenerationAttempt.




(** With the scripts' own settings no delay of the function reaches
    [MAX_DELAY]: the largest is [5 * 2^4 = 80]. *)
Lemma configured_delays_below_max_delay (k : nat) (rate : bool) :
  (1 <= k <= MAX_RETRIES)%nat ->
  backoff BASE_RETRY_DELAY (Z.of_nat k - 1) <= 80
  /\ ((k < MAX_RETRIES)%nat -> backoff BASE_RETRY_DELAY (Z.of_nat k) <= 80).
Proof.
  unfold MAX_RETRIES, BASE_RETRY_DELAY, backoff. intros Hk.
  assert (k = 1 \/ k = 2 \/ k = 3 \/ k = 4 \/ k = 5)%nat as Hc by lia.
  destruct Hc as [->|[->|[->|[->| ->]]]]; simpl; split; lia.
Qed.

(* ===================================================================== *)
(** ** Upload errors stay inside [generate_and_upload_image] *)
(* ===================================================================== *)

Lemma upload_truthy_succeeds w url w1 :
  upload_to_cloudinary w = (Ret url, w1) -> truthy url = true ->
  upload_succeeds (cloudinary w (cloudinary_calls w)) = true.
Proof.
  unfold upload_to_cloudinary, upload_succeeds.
  destruct (cloudinary w (cloudinary_calls w)) as [msg|code text [u|]];
    repeat case_match; intros [= <- <-] Ht; done.
Qed.

Lemma uploads_fail_evolves w w' : evolves w w' -> uploads_fail w -> uploads_fail w'.
Proof. intros [] H i. rewrite ev_cloudinary0. apply H. Qed.

Lemma upload_attempt_fails retry_delay j w :
  0 <= retry_delay -> quiet w -> uploads_fail w ->
  exists w', upload_attempt_body retry_delay j w = (Ret None, w') /\ evolves w w'.
Proof.
  intros Hd Hq Hf.
  destruct (returns_upload_attempt_body retry_delay j Hd w Hq) as (a & w' & E & Hev).
  exists w'. split; [|done].
  destruct (upload_to_cloudinary w) as [o w1] eqn:Eu.
  destruct (upload_attempt_sleeps retry_delay j w o w1 Hd Hq Eu) as (w2 & E2 & _).
  rewrite E2 in E. injection E as <- <-. rewrite E2. do 2 f_equal.
  destruct o as [url| |]; try done.
  destruct (truthy url) eqn:Ht; [|done].
  pose proof (upload_truthy_succeeds _ _ _ Eu Ht) as Hs. by rewrite Hf in Hs.
Qed.

Lemma upload_loop_fails max_retries retry_delay w :
  0 <= retry_delay -> quiet w -> uploads_fail w ->
  exists w', upload_with_retries max_retries retry_delay w = (Ret None, w')
             /\ evolves w w'.
Proof.
  intros Hd. unfold upload_with_retries. generalize (range1 max_retries).
  intros js. revert w. induction js as [|j js IH]; intros w Hq Hf; simpl.
  - exists w. split; [done | apply evolves_refl].
  - destruct (upload_attempt_fails retry_delay j w Hd Hq Hf) as (w1 & E1 & Hev1).
    unfold bind. rewrite E1.
    destruct (IH w1 (evolves_quiet _ _ Hev1 Hq) (uploads_fail_evolves _ _ Hev1 Hf))
      as (w2 & E2 & Hev2).
    exists w2. eauto using evolves_trans.
Qed.

Lemma generation_attempt_fails max_retries retry_delay k w :
  0 <= retry_delay -> quiet w -> uploads_fail w ->
  exists w', Articles.generation_attempt max_retries retry_delay k w = (Ret None, w')
             /\ evolves w w'.
Proof.
  intros Hd Hq Hf.
  destruct (settles_generate_content w Hq) as (o & w1 & E1 & Hni & Hev1).
  pose proof (evolves_quiet _ _ Hev1 Hq) as Hq1.
  unfold Articles.generation_attempt, try_except, bind. rewrite E1.
  assert (forall e, exists w',
             generation_handler max_retries retry_delay k e w1 = (Ret None, w')
             /\ evolves w w') as Hh.
  { intros e.
    destruct (generation_handler_sleeps max_retries retry_delay k e w1 Hd Hq1)
      as (w' & E & Hev & _).
    exists w'. eauto using evolves_trans. }
  assert (forall w2, quiet w2 -> evolves w w2 -> exists w',
             generation_fallthrough max_retries retry_delay k w2 = (Ret None, w')
             /\ evolves w w') as Hft.
  { intros w2 Hq2 Hev2.
    destruct (generation_fallthrough_sleeps max_retries retry_delay k w2 Hd Hq2)
      as (w' & E & Hev & _).
    exists w'. eauto using evolves_trans. }
  destruct o as [resp|e|]; [| by apply Hh | done].
  destruct resp as [?| |[[[mt|] [d|]]|]]; simpl; try (by apply Hh).
  - destruct (Hft w1 Hq1 Hev1) as (w' & -> & ?). by exists w'.
  - destruct (Hft w1 Hq1 Hev1) as (w' & -> & ?). by exists w'.
  - unfold save_and_upload.
    destruct (upload_loop_fails max_retries retry_delay w1 Hd Hq1
                (uploads_fail_evolves _ _ Hev1 Hf)) as (w2 & -> & Hev2).
    destruct (Hft w2) as (w' & -> & ?);
      eauto using evolves_quiet, evolves_trans.
Qed.

(** When no upload succeeds, [generate_and_upload_image] gives [None]:
    the upload errors end there. *)
Lemma generate_fails_articles title max_retries retry_delay w :
  0 <= retry_delay -> quiet w -> uploads_fail w ->
  exists w',
    Articles.generate_and_upload_image title max_retries retry_delay w
    = (Ret None, w') /\ evolves w w'.
Proof.
  intros Hd. unfold Articles.generate_and_upload_image.
  generalize (range1 max_retries). intros ks. revert w.
  induction ks as [|k ks IH]; intros w Hq Hf; simpl.
  - exists w. split; [done | apply evolves_refl].
  - destruct (generation_attempt_fails max_retries retry_delay k w Hd Hq Hf)
      as (w1 & E1 & Hev1).
    unfold bind. rewrite E1.
    destruct (IH w1 (evolves_quiet _ _ Hev1 Hq) (uploads_fail_evolves _ _ Hev1 Hf))
      as (w2 & E2 & Hev2).
    exists w2. eauto using evolves_trans.
Qed.

Lemma generate_fails_replacer title max_retries retry_delay w :
  0 <= retry_delay -> quiet w -> uploads_fail w ->
  exists w',
    Replacer.generate_and_upload_image title max_retries retry_delay w
    = (Ret None, w') /\ evolves w w'.
Proof.
  intros. rewrite generate_and_upload_agree. by apply generate_fails_articles.
Qed.

(* ===================================================================== *)
(** ** Files and titles *)
(* ===================================================================== *)

Lemma read_file_ok p c w :
  files w !! p = Some c -> p ∉ unreadable w -> read_file p w = (Ret c, w).
Proof. intros E Hr. unfold read_file. rewrite E. by destruct (decide _). Qed.

Lemma write_file_ok p c w :
  p ∉ unwritable w -> write_file p c w = (Ret tt, set_files (<[p := c]> (files w)) w).
Proof. intros Hw. unfold write_file. by destruct (decide _). Qed.

Lemma path_exists_ok p c w :
  files w !! p = Some c -> path_exists p w = (Ret true, w).
Proof.
  intros E. unfold path_exists. rewrite E.
  by rewrite bool_decide_eq_true_2.
Qed.

Lemma title_missing_map {S} m title (s : S) :
  m !! "title" = Some title -> title_missing (YMap m) s = (Ret false, s).
Proof.
  intros E. unfold title_missing, yaml_truthy.
  rewrite bool_decide_eq_false_2; [|by intros ->].
  simpl. unfold bind, ret. simpl. rewrite E.
  by rewrite bool_decide_eq_true_2.
Qed.

Lemma get_title_map {S} m title (s : S) :
  m !! "title" = Some title -> get_title (YMap m) s = (Ret title, s).
Proof. intros E. unfold get_title. by rewrite E. Qed.

(** Where generate_articles.py finds a mapping, so does
    placeholder_image_replacer.py: both cut the same text. *)
Lemma replacer_front_matter sl content m :
  (Articles.extract_front_matter sl content).1 = YMap m ->
  (Replacer.extract_front_matter sl content).1 = YMap m.
Proof.
  unfold Articles.extract_front_matter, Replacer.extract_front_matter,
    Replacer.search_front_matter, closing_marker.
  destruct (PyStr.startswith content "---"); simpl; [|done].
  destruct (PyStr.find "---" content 3) as [p|]; simpl; [|done].
  destruct (sl _) as [?|doc]; simpl; [done|].
  destruct (yaml_truthy doc && is_dict doc); simpl; done.
Qed.

Section FailedGeneration.
Variables (sl : string -> yaml_result) (path content title : string).
Variables (m : gmap string string) (w : world).
Hypothesis no_interrupt : quiet w.
Hypothesis readable : files w !! path = Some content /\ path ∉ unreadable w.
Hypothesis sentinel : PyStr.contains PLACEHOLDER_IMAGE_URL content = true.
Hypothesis front_matter : (Articles.extract_front_matter sl content).1 = YMap m.
Hypothesis titled : m !! "title" = Some title.
Hypothesis refused : uploads_fail w.

Lemma articles_replace_fails :
  exists w',
    Articles.replace_image_in_markdown sl path w = (Ret false, w')
    /\ files w' = files w /\ quiet w'
    /\ stats w' = Articles.inc_failed (Articles.inc_with_placeholders (stats w)).
Proof.
  destruct readable as [Hfile Hread].
  unfold Articles.replace_image_in_markdown, try_except, bind.
  rewrite (path_exists_ok _ _ _ Hfile). simpl.
  rewrite (read_file_ok _ _ _ Hfile Hread). rewrite sentinel. simpl.
  rewrite front_matter.
  rewrite (title_missing_map _ _ _ titled).
  rewrite (get_title_map _ _ _ titled). simpl.
  destruct (generate_fails_articles title MAX_RETRIES BASE_RETRY_DELAY
              (set_stats (Articles.inc_with_placeholders (stats w)) w))
    as (w1 & -> & Hev); [done..|].
  simpl. eexists. split; [reflexivity|]. simpl.
  destruct Hev. split_and!; [done | |].
  - unfold quiet. simpl. by rewrite ev_interrupt0.
  - by rewrite ev_stats0.
Qed.

Lemma replacer_replace_fails :
  exists w',
    Replacer.replace_image_in_markdown sl path w = (Ret false, w')
    /\ evolves w w'.
Proof.
  destruct readable as [Hfile Hread].
  unfold Replacer.replace_image_in_markdown, try_except, bind.
  rewrite (read_file_ok _ _ _ Hfile Hread). rewrite sentinel. simpl.
  rewrite (replacer_front_matter _ _ _ front_matter).
  rewrite (title_missing_map _ _ _ titled).
  rewrite (get_title_map _ _ _ titled).
  destruct (generate_fails_replacer title MAX_RETRIES BASE_RETRY_DELAY w)
    as (w1 & -> & Hev); [done..|].
  by exists w1.
Qed.

End FailedGeneration.

(* ===================================================================== *)
(** ** The batch driver, one file at a time *)
(* ===================================================================== *)

Lemma sleep_logged d w :
  0 <= d -> quiet w ->
  sleep d w = (Ret tt, set_slept (slept w ++ [d]) w)
  /\ quiet (set_slept (slept w ++ [d]) w).
Proof. intros. by rewrite sleep_quiet. Qed.

(** The loop body of generate_articles.py refines the specification's
    transition, whatever way the file ended short of an interrupt. *)
Lemma articles_process_file_spec sl f l w o w1 :
  Articles.replace_image_in_markdown sl f w = (o, w1) ->
  o <> Interrupt -> quiet w1 -> 0 <= Articles.current_delay l ->
  let '(delay, count, pauses) :=
    driver_transition (Articles.current_delay l)
                      (Articles.consecutive_failures l) o in
  Articles.process_file sl f (l, w)
  = (Ret tt, (Articles.Locals delay count, set_slept (slept w1 ++ pauses) w1)).
Proof.
  intros E Hni Hq Hd. destruct l as [cd cf]. simpl in Hd.
  unfold driver_transition, Articles.process_file, try_except, bind,
    Articles.lift, Articles.update, Articles.local, modify, when, ret.
  rewrite E. unfold SUCCESS_DELAY, Articles.max_consecutive_failures,
    Articles.base_delay, Articles.max_delay.
  destruct o as [[|]|e|]; [| | |done]; simpl.
  - rewrite sleep_quiet by done. simpl. done.
  - rewrite sleep_quiet by done. simpl.
    destruct (Z.leb_spec 3 (cf + 1)); simpl; [|done].
    rewrite sleep_quiet by (done || lia). simpl. by rewrite <- app_assoc.
  - destruct (rate_limited e); simpl.
    + rewrite sleep_quiet by (done || lia). simpl.
      destruct (Z.leb_spec 3 (cf + 1)); simpl; [|done].
      rewrite sleep_quiet by (done || lia). simpl. by rewrite <- app_assoc.
    + rewrite sleep_quiet by done. simpl.
      destruct (Z.leb_spec 3 (cf + 1)); simpl; [|done].
      rewrite sleep_quiet by (done || lia). simpl. by rewrite <- app_assoc.
Qed.

(** The same for placeholder_image_replacer.py, which also counts the
    successes and lists the files that failed. *)
Lemma replacer_process_file_spec sl f l w o w1 :
  Replacer.replace_image_in_markdown sl f w = (o, w1) ->
  o <> Interrupt -> quiet w1 -> 0 <= Replacer.current_delay l ->
  let '(delay, count, pauses) :=
    driver_transition (Replacer.current_delay l)
                      (Replacer.consecutive_failures l) o in
  Replacer.process_file sl f (l, w)
  = (Ret tt,
     (Replacer.Locals
        (match o with Ret true => Replacer.success_count l + 1
                 | _ => Replacer.success_count l end)
        (match o with Ret true => Replacer.failed_files l
                 | _ => Replacer.failed_files l ++ [PyStr.basename f] end)
        delay count,
      set_slept (slept w1 ++ pauses) w1)).
Proof.
  intros E Hni Hq Hd. destruct l as [sc ff cd cf]. simpl in Hd.
  unfold driver_transition, Replacer.process_file, try_except, bind,
    Replacer.lift, Replacer.update, Replacer.local, modify, when, ret.
  rewrite E. unfold SUCCESS_DELAY, Replacer.max_consecutive_failures,
    Replacer.base_delay, Replacer.max_delay.
  destruct o as [[|]|e|]; [| | |done]; simpl.
  - rewrite sleep_quiet by done. simpl. done.
  - rewrite sleep_quiet by done. simpl.
    destruct (Z.leb_spec 3 (cf + 1)); simpl; [|done].
    rewrite sleep_quiet by (done || lia). simpl. by rewrite <- app_assoc.
  - destruct (rate_limited e); simpl.
    + rewrite sleep_quiet by (done || lia). simpl.
      destruct (Z.leb_spec 3 (cf + 1)); simpl; [|done].
      rewrite sleep_quiet by (done || lia). simpl. by rewrite <- app_assoc.
    + rewrite sleep_quiet by done. simpl.
      destruct (Z.leb_spec 3 (cf + 1)); simpl; [|done].
      rewrite sleep_quiet by (done || lia). simpl. by rewrite <- app_assoc.
Qed.



(** C8: in the batch driver of both scripts, after a successful
    replacement the driver sleeps the fixed [SUCCESS_DELAY] of 60 seconds,
    whatever [current_delay] was, sets [current_delay] back to the base
    value and [consecutive_failures] to 0; [current_delay] is doubled, up
    to [max_delay], exactly when an exception with a rate-limit signature
    reached the driver, and is left alone by every other failure. *)
Theorem success_pause_and_adaptive_delay
    (sl : string -> yaml_result) (f : string) (w : world)
    (current_delay failures : Z) :
  0 <= current_delay ->
  (forall o w1,
     Articles.replace_image_in_markdown sl f w = (o, w1) ->
     o <> Interrupt -> quiet w1 ->
     exists l' pauses,
       Articles.process_file sl f (Articles.Locals current_delay failures, w)
       = (Ret tt, (l', set_slept (slept w1 ++ pauses) w1))
       /\ match o with
          | Ret true =>
              pauses = [SUCCESS_DELAY]
              /\ Articles.current_delay l' = Articles.base_delay
              /\ Articles.consecutive_failures l' = 0
          | Raise e =>
              Articles.current_delay l'
              = if rate_limited e
                then Z.min (current_delay * 2) Articles.max_delay
                else current_delay
          | _ => Articles.current_delay l' = current_delay
          end)
  /\ (forall o w1 successes failed,
        Replacer.replace_image_in_markdown sl f w = (o, w1) ->
        o <> Interrupt -> quiet w1 ->
        exists l' pauses,
          Replacer.process_file sl f
            (Replacer.Locals successes failed current_delay failures, w)
          = (Ret tt, (l', set_slept (slept w1 ++ pauses) w1))
          /\ match o with
             | Ret true =>
                 pauses = [SUCCESS_DELAY]
                 /\ Replacer.current_delay l' = Replacer.base_delay
                 /\ Replacer.consecutive_failures l' = 0
             | Raise e =>
                 Replacer.current_delay l'
                 = if rate_limited e
                   then Z.min (current_delay * 2) Replacer.max_delay
                   else current_delay
             | _ => Replacer.current_delay l' = current_delay
             end).
Proof.
  intros Hd. split.
  - intros o w1 E Hni Hq.
    pose proof (articles_process_file_spec sl f
                  (Articles.Locals current_delay failures) w o w1 E Hni Hq Hd) as H.
    unfold driver_transition in H. simpl in H.
    destruct o as [[|]|e|]; try done; simpl in H;
      try (destruct (Z.leb_spec 3 (failures + 1)));
      eexists _, _; (split; [exact H | done]).
  - intros o w1 sc ff E Hni Hq.
    pose proof (replacer_process_file_spec sl f
                  (Replacer.Locals sc ff current_delay failures) w o w1 E Hni Hq Hd) as H.
    unfold driver_transition in H. simpl in H.
    destruct o as [[|]|e|]; try done; simpl in H;
      try (destruct (Z.leb_spec 3 (failures + 1)));
      eexists _, _; (split; [exact H | done]).
Qed.

Lemma success_pause_and_adaptive_delay_witness :
  let w := Sample.world_of Sample.doc_foo Sample.ok_answer in
  let w1 := (Articles.replace_image_in_markdown Sample.safe_load Sample.a_md w).2 in
  let v1 := (Replacer.replace_image_in_markdown Sample.safe_load Sample.a_md w).2 in
  0 <= 24
  /\ (exists l' pauses,
        Articles.process_file Sample.safe_load Sample.a_md (Articles.Locals 24 2, w)
        = (Ret tt, (l', set_slept (slept w1 ++ pauses) w1))
        /\ pauses = [SUCCESS_DELAY]
        /\ Articles.current_delay l' = Articles.base_delay
        /\ Articles.consecutive_failures l' = 0)
  /\ (exists l' pauses,
        Replacer.process_file Sample.safe_load Sample.a_md
          (Replacer.Locals 0 [] 24 2, w)
        = (Ret tt, (l', set_slept (slept v1 ++ pauses) v1))
        /\ pauses = [SUCCESS_DELAY]
        /\ Replacer.current_delay l' = Replacer.base_delay
        /\ Replacer.consecutive_failures l' = 0).
Proof.
  intros w w1 v1.
  pose proof (success_pause_and_adaptive_delay Sample.safe_load Sample.a_md w
                24 2 ltac:(lia)) as [HA HR].
  split_and!; [lia | |].
  - apply (HA (Ret true) w1); [by vm_compute | done | by vm_compute].
  - apply (HR (Ret true) v1 0 []); [by vm_compute | done | by vm_compute].
Defined.

(* ===================================================================== *)
(** ** What a computation leaves alone *)
(* ===================================================================== *)

Section Always.
Variable R : world -> world -> Prop.
Hypothesis R_refl : forall w, R w w.
Hypothesis R_trans : forall w1 w2 w3, R w1 w2 -> R w2 w3 -> R w1 w3.

Lemma always_ret {A} (a : A) : always R (ret a).
Proof. intros w o w' [= <- <-]. apply R_refl. Qed.

Lemma always_raise {A} e : always R (@raise world A e).
Proof. intros w o w' [= <- <-]. apply R_refl. Qed.

Lemma always_bind {A B} (m : M A) (k : A -> M B) :
  always R m -> (forall a, always R (k a)) -> always R (bind m k).
Proof.
  intros Hm Hk w o w'. unfold bind.
  destruct (m w) as [[a|e|] w1] eqn:E; specialize (Hm _ _ _ E).
  - intros E2. eapply R_trans; [done|]. by eapply Hk.
  - by intros [= <- <-].
  - by intros [= <- <-].
Qed.

Lemma always_try {A} (m : M A) (h : string -> M A) :
  always R m -> (forall e, always R (h e)) -> always R (try_except m h).
Proof.
  intros Hm Hh w o w'. unfold try_except.
  destruct (m w) as [[a|e|] w1] eqn:E; specialize (Hm _ _ _ E).
  - by intros [= <- <-].
  - intros E2. eapply R_trans; [done|]. by eapply Hh.
  - by intros [= <- <-].
Qed.

Lemma always_when c (m : M unit) : always R m -> always R (when c m).
Proof. destruct c; [done | intros _; apply always_ret]. Qed.

Lemma always_for_first {X A} (body : X -> M (option A)) xs :
  (forall x, always R (body x)) -> always R (for_first body xs).
Proof.
  intros Hb. induction xs as [|x xs IH]; simpl.
  - apply always_ret.
  - apply always_bind; [apply Hb|]. intros [v|]; [apply always_ret | apply IH].
Qed.
End Always.

Lemma same_store_refl w : same_store w w.
Proof. by repeat split. Qed.

Lemma same_store_trans w1 w2 w3 :
  same_store w1 w2 -> same_store w2 w3 -> same_store w1 w3.
Proof. unfold same_store. intros ? ?. destruct_and!. split_and!; congruence. Qed.

Lemma same_store_sleep d : always same_store (sleep d).
Proof.
  intros w o w'. unfold sleep.
  repeat case_match; intros [= <- <-]; by repeat split.
Qed.

Lemma same_store_upload : always same_store upload_to_cloudinary.
Proof.
  intros w o w'. unfold upload_to_cloudinary.
  repeat case_match; intros [= <- <-]; by repeat split.
Qed.

Lemma same_store_generate_content : always same_store generate_content.
Proof.
  intros w o w'. unfold generate_content.
  repeat case_match; intros [= <- <-]; by repeat split.
Qed.

(** The frame rules at [same_store] *)
Lemma store_ret {A} (a : A) : always same_store (ret a).
Proof. apply always_ret; apply same_store_refl. Qed.

Lemma store_raise {A} e : always same_store (@raise world A e).
Proof. apply always_raise; apply same_store_refl. Qed.

Lemma store_bind {A B} (m : M A) (k : A -> M B) :
  always same_store m -> (forall a, always same_store (k a)) ->
  always same_store (bind m k).
Proof. apply always_bind; first [apply same_store_refl | apply same_store_trans]. Qed.

Lemma store_try {A} (m : M A) (h : string -> M A) :
  always same_store m -> (forall e, always same_store (h e)) ->
  always same_store (try_except m h).
Proof. apply always_try; first [apply same_store_refl | apply same_store_trans]. Qed.

Lemma store_when c (m : M unit) :
  always same_store m -> always same_store (when c m).
Proof. apply always_when; apply same_store_refl. Qed.

Lemma store_for_first {X A} (body : X -> M (option A)) xs :
  (forall x, always same_store (body x)) -> always same_store (for_first body xs).
Proof. apply always_for_first; first [apply same_store_refl | apply same_store_trans]. Qed.

Ltac store_frame :=
  repeat first
    [ apply store_ret
    | apply store_raise
    | apply same_store_sleep
    | apply same_store_upload
    | apply same_store_generate_content
    | apply store_when
    | apply store_bind; [| intros ?]
    | apply store_try; [| intros ?]
    | apply store_for_first; intros ?
    | progress case_match ].

(** [generate_and_upload_image] touches neither the files nor the
    statistics, however it ends. *)
Lemma same_store_generate_articles title max_retries retry_delay :
  always same_store
    (Articles.generate_and_upload_image title max_retries retry_delay).
Proof.
  unfold Articles.generate_and_upload_image, Articles.generation_attempt,
    generation_handler, generation_fallthrough, save_and_upload,
    upload_with_retries, upload_attempt_body.
  store_frame.
Qed.

Lemma same_store_generate_replacer title max_retries retry_delay :
  always same_store
    (Replacer.generate_and_upload_image title max_retries retry_delay).
Proof.
  intros w o w'. rewrite generate_and_upload_agree.
  apply same_store_generate_articles.
Qed.

(* ===================================================================== *)
(** ** The statistics of generate_articles.py *)
(* ===================================================================== *)

Lemma title_missing_pure {S} d (s : S) o s' :
  title_missing d s = (o, s') -> s' = s /\ o <> Interrupt.
Proof.
  unfold title_missing, has_title, bind, ret, raise.
  destruct (yaml_truthy d); simpl; [|by intros [= <- <-]].
  destruct d; intros [= <- <-]; done.
Qed.

Lemma get_title_pure {S} d (s : S) o s' :
  get_title d s = (o, s') -> s' = s /\ o <> Interrupt.
Proof.
  unfold get_title, ret, raise.
  destruct d; repeat case_match; intros [= <- <-]; done.
Qed.

Lemma articles_call_counted sl p w o w' :
  Articles.replace_image_in_markdown sl p w = (o, w') ->
  call_counted o (stats w) (stats w').
Proof.
  unfold Articles.replace_image_in_markdown, try_except, bind, path_exists,
    read_file, write_file, update_stats, modify, ret, raise.
  destruct (bool_decide _); simpl; [|intros [= <- <-]; simpl; tauto].
  destruct (files w !! p) as [c|]; [|intros [= <- <-]; simpl; tauto].
  destruct (decide (p ∈ unreadable w)); [intros [= <- <-]; simpl; tauto|].
  destruct (PyStr.contains _ c); simpl; [|intros [= <- <-]; simpl; tauto].
  destruct (title_missing _ _) as [[missing|e|] w0] eqn:Em;
    apply title_missing_pure in Em as [-> Hni]; [| |done];
    [|intros [= <- <-]; simpl; tauto].
  destruct missing.
  - destruct (Articles.title_fallback c) as [t|];
      [|intros [= <- <-]; simpl; tauto].
    destruct (Articles.generate_and_upload_image _ _ _ _) as [[[url|]|e|] w1] eqn:Eg;
      apply same_store_generate_articles in Eg;
      destruct Eg as (_ & _ & Hw & _ & _ & _ & _ & Hs); simpl in Hs;
      try (intros [= <- <-]; simpl; rewrite Hs; simpl; tauto).
    rewrite Hw. simpl.
    destruct (decide (p ∈ unwritable w));
      [intros [= <- <-]; simpl; rewrite Hs; simpl; tauto|].
    simpl. rewrite Hw. simpl.
    destruct (decide (p +:+ ".bak" ∈ unwritable w));
      intros [= <- <-]; simpl; rewrite Hs; simpl; eauto 10.
  - destruct (get_title _ _) as [[t|e|] w0] eqn:Et;
      apply get_title_pure in Et as [-> Hni']; [| |done];
      [|intros [= <- <-]; simpl; tauto].
    destruct (Articles.generate_and_upload_image _ _ _ _) as [[[url|]|e|] w1] eqn:Eg;
      apply same_store_generate_articles in Eg;
      destruct Eg as (_ & _ & Hw & _ & _ & _ & _ & Hs); simpl in Hs;
      try (intros [= <- <-]; simpl; rewrite Hs; simpl; tauto).
    rewrite Hw. simpl.
    destruct (decide (p ∈ unwritable w));
      [intros [= <- <-]; simpl; rewrite Hs; simpl; tauto|].
    simpl. rewrite Hw. simpl.
    destruct (decide (p +:+ ".bak" ∈ unwritable w));
      intros [= <- <-]; simpl; rewrite Hs; simpl; eauto 10.
Qed.

(* ===================================================================== *)
(** ** Nothing but the user interrupts *)
(* ===================================================================== *)

Lemma calm_ret {A} (a : A) : calm (ret a).
Proof. intros w Hq. by exists (Ret a), w. Qed.

Lemma calm_raise {A} e : calm (@raise world A e).
Proof. intros w Hq. by exists (Raise e), w. Qed.

Lemma calm_bind {A B} (m : M A) (k : A -> M B) :
  calm m -> (forall a, calm (k a)) -> calm (bind m k).
Proof.
  intros Hm Hk w Hq. destruct (Hm w Hq) as (o & w1 & E1 & Hni & Hq1).
  unfold bind. rewrite E1. destruct o as [a|e|]; [| |done].
  - apply Hk, Hq1.
  - by exists (Raise e), w1.
Qed.

Lemma calm_try {A} (m : M A) (h : string -> M A) :
  calm m -> (forall e, calm (h e)) -> calm (try_except m h).
Proof.
  intros Hm Hh w Hq. destruct (Hm w Hq) as (o & w1 & E1 & Hni & Hq1).
  unfold try_except. rewrite E1. destruct o as [a|e|]; [| |done].
  - by exists (Ret a), w1.
  - apply Hh, Hq1.
Qed.

Lemma calm_settles {A} (m : M A) : settles m -> calm m.
Proof.
  intros H w Hq. destruct (H w Hq) as (o & w1 & E & Hni & Hev).
  exists o, w1. eauto using evolves_quiet.
Qed.

Lemma calm_returns {A} (m : M A) : returns m -> calm m.
Proof. intros H. by apply calm_settles, returns_settles. Qed.

Lemma calm_read_file p : calm (read_file p).
Proof.
  intros w Hq. unfold read_file.
  repeat case_match; eexists _, _; split_and!; done.
Qed.

Lemma calm_write_file p c : calm (write_file p c).
Proof.
  intros w Hq. unfold write_file.
  repeat case_match; eexists _, _; split_and!; done.
Qed.

Lemma calm_path_exists p : calm (path_exists p).
Proof. intros w Hq. eexists _, _; split_and!; done. Qed.

Lemma calm_update_stats f : calm (update_stats f).
Proof. intros w Hq. eexists _, _; split_and!; done. Qed.

Lemma calm_title_missing d : calm (title_missing d).
Proof.
  intros w Hq. destruct (title_missing d w) as [o w'] eqn:E.
  apply title_missing_pure in E as [-> Hni]. by exists o, w.
Qed.

Lemma calm_get_title d : calm (get_title d).
Proof.
  intros w Hq. destruct (get_title d w) as [o w'] eqn:E.
  apply get_title_pure in E as [-> Hni]. by exists o, w.
Qed.

Ltac calm_steps :=
  repeat first
    [ apply calm_ret
    | apply calm_raise
    | apply calm_read_file
    | apply calm_write_file
    | apply calm_path_exists
    | apply calm_update_stats
    | apply calm_title_missing
    | apply calm_get_title
    | apply calm_returns, returns_generate_articles; done
    | apply calm_returns, returns_generate_replacer; done
    | apply calm_bind; [| intros ?]
    | apply calm_try; [| intros ?]
    | progress case_match ].

(** Short of a user interrupt, [replace_image_in_markdown] ends with a
    value or with an exception. *)
Lemma calm_replace_articles sl p : calm (Articles.replace_image_in_markdown sl p).
Proof. unfold Articles.replace_image_in_markdown. calm_steps. Qed.

Lemma calm_replace_replacer sl p : calm (Replacer.replace_image_in_markdown sl p).
Proof. unfold Replacer.replace_image_in_markdown. calm_steps. Qed.

(** The loop of generate_articles.py goes through every file: the count of
    outcomes grows by the number of files, the success counter stays the
    length of the list of replaced images, and the delay stays within its
    bounds. *)
Lemma articles_loop_runs sl fs : forall l w,
  quiet w -> 0 <= Articles.current_delay l ->
  exists l' w',
    Articles.process_files sl fs (l, w) = (Ret tt, (l', w'))
    /\ quiet w' /\ 0 <= Articles.current_delay l'
    /\ tally (stats w') = tally (stats w) + Z.of_nat (length fs)
    /\ (consistent (stats w) -> consistent (stats w')).
Proof.
  unfold Articles.process_files.
  induction fs as [|f fs IH]; intros l w Hq Hd.
  - exists l, w. simpl. split_and!; try done. lia.
  - destruct (calm_replace_articles sl f w Hq) as (o & w1 & E & Hni & Hq1).
    pose proof (articles_process_file_spec sl f l w o w1 E Hni Hq1 Hd) as Hstep.
    pose proof (articles_call_counted sl f w o w1 E) as Hc.
    destruct (driver_transition _ _ o) as [[delay count] pauses] eqn:Et.
    assert (0 <= delay) as Hd'.
    { revert Et. unfold driver_transition.
      destruct o as [[|]|e|]; try done; repeat case_match;
        intros [= <- <- <-]; lia. }
    destruct (IH (Articles.Locals delay count) (set_slept (slept w1 ++ pauses) w1))
      as (l' & w' & E' & Hq' & Hd'' & Ht & Hcons); [done..|].
    exists l', w'. simpl. unfold bind. rewrite Hstep.
    split_and!; try done.
    + rewrite Ht. simpl. unfold tally.
      destruct o as [[|]|e|]; try done; simpl in Hc; lia.
    + intros H0. apply Hcons. simpl. unfold consistent in *.
      destruct o as [[|]|e|]; try done; simpl in Hc.
      * destruct Hc as (-> & _ & _ & item & ->). rewrite length_app. simpl. lia.
      * destruct Hc as (-> & -> & _). done.
      * destruct Hc as (-> & -> & _). done.
Qed.

(** The loop of placeholder_image_replacer.py goes through every file. *)
Lemma replacer_loop_runs sl fs : forall l w,
  quiet w -> 0 <= Replacer.current_delay l ->
  exists l' w',
    Replacer.process_files sl fs (l, w) = (Ret tt, (l', w'))
    /\ quiet w' /\ 0 <= Replacer.current_delay l'.
Proof.
  unfold Replacer.process_files.
  induction fs as [|f fs IH]; intros l w Hq Hd.
  - by exists l, w.
  - destruct (calm_replace_replacer sl f w Hq) as (o & w1 & E & Hni & Hq1).
    pose proof (replacer_process_file_spec sl f l w o w1 E Hni Hq1 Hd) as Hstep.
    destruct (driver_transition _ _ o) as [[delay count] pauses] eqn:Et.
    assert (0 <= delay) as Hd'.
    { revert Et. unfold driver_transition.
      destruct o as [[|]|e|]; try done; repeat case_match;
        intros [= <- <- <-]; lia. }
    simpl. unfold bind. rewrite Hstep. by apply IH.
Qed.



(* ===================================================================== *)
(** ** Upload errors and the batch driver *)
(* ===================================================================== *)




(* ===================================================================== *)
(** ** A file without the sentinel URL *)
(* ===================================================================== *)

(** C4 as stated fails: the batch driver of placeholder_image_replacer.py
    lists a file without the sentinel URL among the failed files. *)
Lemma file_without_sentinel_listed_as_failed :
  (Replacer.process_all_markdown_files Sample.safe_load [Sample.a_md]
     (Sample.world_of Sample.doc_plain Sample.ok_answer)).1
  = Ret (Some (Replacer.Locals 0 ["a.md"] 3 1)).
Proof. by vm_compute. Qed.

(** C4 (amended): for a document that does not contain the sentinel URL,
    [replace_image_in_markdown] returns [False] and leaves every file as it
    was; generate_articles.py counts the file in [skipped_files] and not in
    [failed_replacements]; placeholder_image_replacer.py, which keeps no
    record of skipped files, lists it in [failed_files]; the batch driver
    of both scripts counts it as a consecutive failure and pauses
    [current_delay]. *)
Theorem file_without_sentinel_is_left_alone
    (sl : string -> yaml_result) (p content : string) (w : world) :
  files w !! p = Some content -> p ∉ unreadable w ->
  PyStr.contains PLACEHOLDER_IMAGE_URL content = false ->
  quiet w ->
  Articles.replace_image_in_markdown sl p w
    = (Ret false, set_stats (Articles.inc_skipped (stats w)) w)
  /\ Replacer.replace_image_in_markdown sl p w = (Ret false, w)
  /\ files (Articles.replace_image_in_markdown sl p w).2 = files w
  /\ skipped_files (stats (Articles.replace_image_in_markdown sl p w).2)
     = skipped_files (stats w) + 1
  /\ failed_replacements (stats (Articles.replace_image_in_markdown sl p w).2)
     = failed_replacements (stats w)
  /\ (forall delay failures, 0 <= delay ->
        exists w',
          Articles.process_file sl p (Articles.Locals delay failures, w)
          = (Ret tt,
             (Articles.Locals delay (if 3 <=? failures + 1 then 0 else failures + 1),
              w'))
          /\ files w' = files w
          /\ slept w' = slept w ++
               (if 3 <=? failures + 1 then [delay; Z.min (delay * 3) 120]
                else [delay]))
  /\ (forall successes failed delay failures, 0 <= delay ->
        exists w',
          Replacer.process_file sl p
            (Replacer.Locals successes failed delay failures, w)
          = (Ret tt,
             (Replacer.Locals successes (failed ++ [PyStr.basename p]) delay
                (if 3 <=? failures + 1 then 0 else failures + 1),
              w'))
          /\ files w' = files w
          /\ slept w' = slept w ++
               (if 3 <=? failures + 1 then [delay; Z.min (delay * 3) 120]
                else [delay])).
Proof.
  intros Hfile Hread Hsent Hq.
  assert (Articles.replace_image_in_markdown sl p w
          = (Ret false, set_stats (Articles.inc_skipped (stats w)) w)) as Ea.
  { unfold Articles.replace_image_in_markdown, try_except, bind.
    rewrite (path_exists_ok _ _ _ Hfile). simpl.
    rewrite (read_file_ok _ _ _ Hfile Hread). by rewrite Hsent. }
  assert (Replacer.replace_image_in_markdown sl p w = (Ret false, w)) as Er.
  { unfold Replacer.replace_image_in_markdown, try_except, bind.
    rewrite (read_file_ok _ _ _ Hfile Hread). by rewrite Hsent. }
  rewrite Ea. split_and!; try done.
  - intros delay failures Hd.
    pose proof (articles_process_file_spec sl p (Articles.Locals delay failures)
                  w (Ret false) _ Ea ltac:(done) Hq Hd) as H.
    unfold driver_transition in H. simpl in H.
    destruct (3 <=? failures + 1); eexists; (split; [exact H | done]).
  - intros sc ff delay failures Hd.
    pose proof (replacer_process_file_spec sl p
                  (Replacer.Locals sc ff delay failures)
                  w (Ret false) _ Er ltac:(done) Hq Hd) as H.
    unfold driver_transition in H. simpl in H.
    destruct (3 <=? failures + 1); eexists; (split; [exact H | done]).
Qed.

Lemma file_without_sentinel_is_left_alone_witness :
  let w := Sample.world_of Sample.doc_plain Sample.ok_answer in
  files w !! Sample.a_md = Some Sample.doc_plain
  /\ (Sample.a_md ∉ unreadable w)
  /\ PyStr.contains PLACEHOLDER_IMAGE_URL Sample.doc_plain = false
  /\ quiet w
  /\ Articles.replace_image_in_markdown Sample.safe_load Sample.a_md w
     = (Ret false, set_stats (Articles.inc_skipped (stats w)) w)
  /\ Replacer.replace_image_in_markdown Sample.safe_load Sample.a_md w
     = (Ret false, w).
Proof.
  intros w.
  assert (files w !! Sample.a_md = Some Sample.doc_plain) as Hf by (by vm_compute).
  assert (Sample.a_md ∉ unreadable w) as Hr by set_solver.
  assert (PyStr.contains PLACEHOLDER_IMAGE_URL Sample.doc_plain = false) as Hs
    by (by vm_compute).
  assert (quiet w) as Hq by reflexivity.
  pose proof (file_without_sentinel_is_left_alone Sample.safe_load Sample.a_md
                Sample.doc_plain w Hf Hr Hs Hq) as (Ha & Hrp & _).
  split_and!; done.
Defined.

(* ===================================================================== *)
(** ** [str.replace], [str.count] and [in] *)
(* ===================================================================== *)

Lemma string_length_app (s t : string) :
  String.length (s +:+ t) = (String.length s + String.length t)%nat.
Proof. induction s as [|c s IH]; simpl; [done | by rewrite IH]. Qed.

Lemma string_app_cons c (s t : string) : String c s +:+ t = String c (s +:+ t).
Proof. reflexivity. Qed.

Lemma string_app_assoc (s t u : string) : (s +:+ t) +:+ u = s +:+ (t +:+ u).
Proof. induction s as [|c s IH]; [done|]. rewrite !string_app_cons. by f_equal. Qed.

Lemma startswith_length s p :
  PyStr.startswith s p = true -> (String.length p <= String.length s)%nat.
Proof.
  revert s. induction p as [|a p IH]; intros [|b s]; simpl; try done; try lia.
  destruct (Ascii.eqb a b); [|done]. intros H. apply IH in H. lia.
Qed.

Lemma startswith_app s p :
  PyStr.startswith s p = true -> s = p +:+ PyStr.drop (String.length p) s.
Proof.
  revert s. induction p as [|a p IH]; intros [|b s]; simpl; try done.
  destruct (Ascii.eqb_spec a b) as [->|]; [|done]. intros H.
  rewrite string_app_cons. f_equal. by apply IH.
Qed.

Lemma find_from_cons sub c s i :
  PyStr.find_from sub (String c s) i
  = if PyStr.startswith (String c s) sub then Some i
    else PyStr.find_from sub s (S i).
Proof. by destruct sub. Qed.

Lemma find_from_nil sub i :
  PyStr.find_from sub EmptyString i
  = if PyStr.startswith EmptyString sub then Some i else None.
Proof. by destruct sub. Qed.

Lemma find_from_found sub : forall s i j,
  is_Some (PyStr.find_from sub s i) -> is_Some (PyStr.find_from sub s j).
Proof.
  induction s as [|d s IH]; intros i j.
  - rewrite !find_from_nil. by destruct (PyStr.startswith _ _).
  - rewrite !find_from_cons. destruct (PyStr.startswith _ _); [done|]. apply IH.
Qed.

Lemma contains_cons sub c s :
  PyStr.contains sub (String c s)
  = PyStr.startswith (String c s) sub || PyStr.contains sub s.
Proof.
  unfold PyStr.contains. rewrite find_from_cons.
  destruct (PyStr.startswith (String c s) sub); [done|]. simpl.
  pose proof (find_from_found sub s 0 1) as H01.
  pose proof (find_from_found sub s 1 0) as H10.
  destruct (PyStr.find_from sub s 1), (PyStr.find_from sub s 0); try done.
  - by destruct H10.
  - by destruct H01.
Qed.

(** The sentinel is found exactly when there is an occurrence to replace. *)
Lemma contains_count old s :
  old <> EmptyString ->
  PyStr.contains old s = true <-> (1 <= PyStr.count old s)%nat.
Proof.
  intros Hold. unfold PyStr.count. induction s as [|c s IH].
  - unfold PyStr.contains. destruct old; [done|]. simpl. split; [done|lia].
  - rewrite contains_cons.
    change (PyStr.count_from old 0 (String c s))
      with (if PyStr.startswith (String c s) old
            then S (PyStr.count_from old (String.length old - 1) s)
            else PyStr.count_from old 0 s).
    destruct (PyStr.startswith (String c s) old); simpl; [split; [lia|done]|].
    apply IH.
Qed.

Lemma replace_from_cons0 old new c s :
  PyStr.replace_from old new 0 (String c s)
  = if PyStr.startswith (String c s) old
    then new +:+ PyStr.replace_from old new (String.length old - 1) s
    else String c (PyStr.replace_from old new 0 s).
Proof. reflexivity. Qed.

Lemma count_from_cons0 old c s :
  PyStr.count_from old 0 (String c s)
  = if PyStr.startswith (String c s) old
    then S (PyStr.count_from old (String.length old - 1) s)
    else PyStr.count_from old 0 s.
Proof. reflexivity. Qed.

(** Each substitution trades one [old] for one [new]. *)
Lemma replace_from_length old new : forall s skip,
  old <> EmptyString ->
  (String.length (PyStr.replace_from old new skip s)
   + PyStr.count_from old skip s * String.length old
   + Nat.min skip (String.length s)
   = String.length s + PyStr.count_from old skip s * String.length new)%nat.
Proof.
  intros s skip Hold. revert skip.
  assert (String.length old <> 0)%nat as Hlen by (by destruct old).
  induction s as [|c s IH]; intros [|k].
  - simpl. lia.
  - simpl. lia.
  - rewrite replace_from_cons0, count_from_cons0.
    destruct (PyStr.startswith (String c s) old) eqn:E.
    + apply startswith_length in E. simpl in E.
      specialize (IH (String.length old - 1)%nat).
      rewrite string_length_app. simpl. lia.
    + specialize (IH 0%nat). simpl in *. lia.
  - specialize (IH k). simpl. lia.
Qed.

Lemma replace_length old new s :
  old <> EmptyString ->
  (String.length (PyStr.replace old new s)
   + PyStr.count old s * String.length old
   = String.length s + PyStr.count old s * String.length new)%nat.
Proof.
  intros Hold. pose proof (replace_from_length old new s 0 Hold) as H.
  unfold PyStr.replace, PyStr.count. destruct old; [done|].
  rewrite Nat.min_0_l in H. lia.
Qed.

Lemma replace_from_none old new : forall s skip,
  PyStr.count_from old skip s = 0%nat ->
  PyStr.replace_from old new skip s = PyStr.drop skip s.
Proof.
  induction s as [|c s IH]; intros [|k]; try done.
  - rewrite replace_from_cons0, count_from_cons0.
    destruct (PyStr.startswith (String c s) old); [done|].
    intros H. rewrite (IH 0%nat H). by destruct s.
  - apply IH.
Qed.

(** With a single occurrence, [replace] is one substitution in place. *)
Lemma replace_single old new s :
  old <> EmptyString -> PyStr.count old s = 1%nat ->
  exists pre post,
    s = pre +:+ old +:+ post
    /\ PyStr.replace old new s = pre +:+ new +:+ post.
Proof.
  intros Hold.
  assert (PyStr.replace old new s = PyStr.replace_from old new 0 s) as ->
    by (by destruct old).
  unfold PyStr.count.
  induction s as [|c s IH]; [done|].
  rewrite replace_from_cons0, count_from_cons0.
  destruct (PyStr.startswith (String c s) old) eqn:E.
  - intros [= H]. exists EmptyString, (PyStr.drop (String.length old) (String c s)).
    split; [by apply startswith_app|].
    rewrite (replace_from_none _ _ _ _ H).
    destruct old as [|a old']; [done|]. simpl. by rewrite Nat.sub_0_r.
  - intros H. destruct (IH H) as (pre & post & -> & ->).
    by exists (String c pre), post.
Qed.

(* ===================================================================== *)
(** ** The statistics do not bear on the generation *)
(* ===================================================================== *)

Lemma blind_ret {A} (a : A) : stat_blind (ret a).
Proof. done. Qed.

Lemma blind_raise {A} e : stat_blind (@raise world A e).
Proof. done. Qed.

Lemma blind_bind {A B} (m : M A) (k : A -> M B) :
  stat_blind m -> (forall a, stat_blind (k a)) -> stat_blind (bind m k).
Proof.
  intros Hm Hk s w. unfold bind. rewrite Hm.
  destruct (m w) as [[a|e|] w1]; simpl; [apply Hk | done | done].
Qed.

Lemma blind_try {A} (m : M A) (h : string -> M A) :
  stat_blind m -> (forall e, stat_blind (h e)) -> stat_blind (try_except m h).
Proof.
  intros Hm Hh s w. unfold try_except. rewrite Hm.
  destruct (m w) as [[a|e|] w1]; simpl; [done | apply Hh | done].
Qed.

Lemma blind_when c (m : M unit) : stat_blind m -> stat_blind (when c m).
Proof. by destruct c. Qed.

Lemma blind_for_first {X A} (body : X -> M (option A)) xs :
  (forall x, stat_blind (body x)) -> stat_blind (for_first body xs).
Proof.
  intros Hb. induction xs as [|x xs IH]; simpl; [done|].
  apply blind_bind; [apply Hb|]. by intros [v|].
Qed.

Lemma blind_sleep d : stat_blind (sleep d).
Proof. intros s w. unfold sleep. simpl. by repeat case_match. Qed.

Lemma blind_upload : stat_blind upload_to_cloudinary.
Proof. intros s w. unfold upload_to_cloudinary. simpl. by repeat case_match. Qed.

Lemma blind_generate_content : stat_blind generate_content.
Proof. intros s w. unfold generate_content. simpl. by repeat case_match. Qed.

Ltac blind_steps :=
  repeat first
    [ apply blind_ret
    | apply blind_raise
    | apply blind_sleep
    | apply blind_upload
    | apply blind_generate_content
    | apply blind_when
    | apply blind_bind; [| intros ?]
    | apply blind_try; [| intros ?]
    | apply blind_for_first; intros ?
    | progress case_match ].

Lemma blind_generate_articles title max_retries retry_delay :
  stat_blind (Articles.generate_and_upload_image title max_retries retry_delay).
Proof.
  unfold Articles.generate_and_upload_image, Articles.generation_attempt,
    generation_handler, generation_fallthrough, save_and_upload,
    upload_with_retries, upload_attempt_body.
  blind_steps.
Qed.

(* ===================================================================== *)
(** ** A successful replacement *)
(* ===================================================================== *)

Lemma placeholder_not_empty : PLACEHOLDER_IMAGE_URL <> EmptyString.
Proof. done. Qed.

Lemma backup_path_differs (p : string) : p <> p +:+ ".bak".
Proof.
  intros H. apply (f_equal String.length) in H.
  rewrite string_length_app in H. simpl in H. lia.
Qed.

Section SuccessfulGeneration.
Variables (sl : string -> yaml_result) (p content title url : string).
Variables (m : gmap string string) (w w1 : world).
Hypothesis readable : files w !! p = Some content /\ (p ∉ unreadable w).
Hypothesis writable : (p ∉ unwritable w) /\ (p +:+ ".bak" ∉ unwritable w).
Hypothesis sentinel : PyStr.contains PLACEHOLDER_IMAGE_URL content = true.
Hypothesis front_matter : (Articles.extract_front_matter sl content).1 = YMap m.
Hypothesis titled : m !! "title" = Some title.
Hypothesis generated :
  Replacer.generate_and_upload_image title MAX_RETRIES BASE_RETRY_DELAY w
  = (Ret (Some url), w1).

Lemma replacer_replace_succeeds :
  Replacer.replace_image_in_markdown sl p w
  = (Ret true,
     set_files (<[p +:+ ".bak" := content]>
                  (<[p := PyStr.replace PLACEHOLDER_IMAGE_URL url content]>
                     (files w))) w1).
Proof.
  destruct readable as [Hfile Hread]. destruct writable as [Hw Hb].
  pose proof (same_store_generate_replacer _ _ _ _ _ _ generated)
    as (Hf & _ & Hu & _).
  unfold Replacer.replace_image_in_markdown, try_except, bind.
  rewrite (read_file_ok _ _ _ Hfile Hread). rewrite sentinel. simpl.
  rewrite (replacer_front_matter _ _ _ front_matter).
  rewrite (title_missing_map _ _ _ titled).
  rewrite (get_title_map _ _ _ titled).
  rewrite generated.
  rewrite write_file_ok by (by rewrite Hu).
  rewrite write_file_ok by (by simpl; rewrite Hu).
  simpl. by rewrite Hf.
Qed.

Lemma articles_replace_succeeds :
  Articles.replace_image_in_markdown sl p w
  = (Ret true,
     set_stats
       (Articles.inc_successful title (PyStr.basename p) url
          (Articles.inc_with_placeholders (stats w)))
       (set_files (<[p +:+ ".bak" := content]>
                     (<[p := PyStr.replace PLACEHOLDER_IMAGE_URL url content]>
                        (files w))) w1)).
Proof.
  destruct readable as [Hfile Hread]. destruct writable as [Hw Hb].
  pose proof (same_store_generate_replacer _ _ _ _ _ _ generated)
    as (Hf & _ & Hu & _ & _ & _ & _ & Hs).
  unfold Articles.replace_image_in_markdown, try_except, bind.
  rewrite (path_exists_ok _ _ _ Hfile). simpl.
  rewrite (read_file_ok _ _ _ Hfile Hread). rewrite sentinel. simpl.
  rewrite front_matter.
  rewrite (title_missing_map _ _ _ titled).
  rewrite (get_title_map _ _ _ titled). simpl.
  rewrite blind_generate_articles, <- generate_and_upload_agree, generated.
  simpl.
  rewrite write_file_ok by (by simpl; rewrite Hu).
  rewrite write_file_ok by (by simpl; rewrite Hu).
  simpl. by rewrite Hf.
Qed.

End SuccessfulGeneration.




(* ===================================================================== *)
(** ** The front matter *)
(* ===================================================================== *)




(* ===================================================================== *)
(** ** A title that the front matter does not give *)
(* ===================================================================== *)


Section MissingTitle.
Variables (sl : string -> yaml_result) (p content : string) (w : world).
Hypothesis readable : files w !! p = Some content /\ (p ∉ unreadable w).
Hypothesis sentinel : PyStr.contains PLACEHOLDER_IMAGE_URL content = true.

Lemma replacer_hard_skip :
  title_missing (Replacer.extract_front_matter sl content).1 w = (Ret true, w) ->
  Replacer.replace_image_in_markdown sl p w = (Ret false, w).
Proof.
  intros Hm. destruct readable as [Hfile Hread].
  unfold Replacer.replace_image_in_markdown, try_except, bind.
  rewrite (read_file_ok _ _ _ Hfile Hread). rewrite sentinel. simpl.
  by rewrite Hm.
Qed.

Hypothesis missing : forall w0 : world,
  title_missing (Articles.extract_front_matter sl content).1 w0 = (Ret true, w0).

Lemma articles_no_fallback :
  Articles.title_fallback content = None ->
  Articles.replace_image_in_markdown sl p w
  = (Ret false,
     set_stats (Articles.inc_failed (Articles.inc_with_placeholders (stats w))) w).
Proof.
  intros Hfb. destruct readable as [Hfile Hread].
  unfold Articles.replace_image_in_markdown, try_except, bind.
  rewrite (path_exists_ok _ _ _ Hfile). simpl.
  rewrite (read_file_ok _ _ _ Hfile Hread). rewrite sentinel. simpl.
  rewrite missing. by rewrite Hfb.
Qed.

Lemma articles_fallback_fails title w1 :
  Articles.title_fallback content = Some title ->
  Replacer.generate_and_upload_image title MAX_RETRIES BASE_RETRY_DELAY w
    = (Ret None, w1) ->
  Articles.replace_image_in_markdown sl p w
  = (Ret false,
     set_stats (Articles.inc_failed (Articles.inc_with_placeholders (stats w))) w1).
Proof.
  intros Hfb Hgen. destruct readable as [Hfile Hread].
  unfold Articles.replace_image_in_markdown, try_except, bind.
  rewrite (path_exists_ok _ _ _ Hfile). simpl.
  rewrite (read_file_ok _ _ _ Hfile Hread). rewrite sentinel. simpl.
  rewrite missing. rewrite Hfb. simpl.
  rewrite blind_generate_articles, <- generate_and_upload_agree, Hgen.
  done.
Qed.

Lemma articles_fallback_succeeds title url w1 :
  (p ∉ unwritable w) /\ (p +:+ ".bak" ∉ unwritable w) ->
  Articles.title_fallback content = Some title ->
  Replacer.generate_and_upload_image title MAX_RETRIES BASE_RETRY_DELAY w
    = (Ret (Some url), w1) ->
  Articles.replace_image_in_markdown sl p w
  = (Ret true,
     set_stats
       (Articles.inc_successful title (PyStr.basename p) url
          (Articles.inc_with_placeholders (stats w)))
       (set_files (<[p +:+ ".bak" := content]>
                     (<[p := PyStr.replace PLACEHOLDER_IMAGE_URL url content]>
                        (files w))) w1)).
Proof.
  intros [Hw Hb] Hfb Hgen. destruct readable as [Hfile Hread].
  pose proof (same_store_generate_replacer _ _ _ _ _ _ Hgen) as (Hf & _ & Hu & _).
  unfold Articles.replace_image_in_markdown, try_except, bind.
  rewrite (path_exists_ok _ _ _ Hfile). simpl.
  rewrite (read_file_ok _ _ _ Hfile Hread). rewrite sentinel. simpl.
  rewrite missing. rewrite Hfb. simpl.
  rewrite blind_generate_articles, <- generate_and_upload_agree, Hgen.
  simpl.
  rewrite write_file_ok by (by simpl; rewrite Hu).
  rewrite write_file_ok by (by simpl; rewrite Hu).
  simpl. by rewrite Hf.
Qed.

End MissingTitle.



(* ===================================================================== *)
(** ** The summary report *)
(* ===================================================================== *)

Lemma same_access_refl w : same_access w w.
Proof. by repeat split. Qed.

Lemma same_access_trans w1 w2 w3 :
  same_access w1 w2 -> same_access w2 w3 -> same_access w1 w3.
Proof. unfold same_access. intros ? ?. destruct_and!. split_and!; congruence. Qed.

Lemma same_store_access w w' : same_store w w' -> same_access w w'.
Proof. unfold same_store, same_access. intros ?. destruct_and!. by split_and!. Qed.

Lemma always_weaken (R R' : world -> world -> Prop) {A} (m : M A) :
  (forall w w', R w w' -> R' w w') -> always R m -> always R' m.
Proof. intros HR Hm w o w' E. by eapply HR, Hm. Qed.

Lemma access_ret {A} (a : A) : always same_access (ret a).
Proof. apply always_ret; apply same_access_refl. Qed.

Lemma access_raise {A} e : always same_access (@raise world A e).
Proof. apply always_raise; apply same_access_refl. Qed.

Lemma access_bind {A B} (m : M A) (k : A -> M B) :
  always same_access m -> (forall a, always same_access (k a)) ->
  always same_access (bind m k).
Proof. apply always_bind; first [apply same_access_refl | apply same_access_trans]. Qed.

Lemma access_try {A} (m : M A) (h : string -> M A) :
  always same_access m -> (forall e, always same_access (h e)) ->
  always same_access (try_except m h).
Proof. apply always_try; first [apply same_access_refl | apply same_access_trans]. Qed.

Lemma access_read_file p : always same_access (read_file p).
Proof.
  intros w o w'. unfold read_file.
  repeat case_match; intros [= <- <-]; by repeat split.
Qed.

Lemma access_write_file p c : always same_access (write_file p c).
Proof.
  intros w o w'. unfold write_file.
  repeat case_match; intros [= <- <-]; by repeat split.
Qed.

Lemma access_path_exists p : always same_access (path_exists p).
Proof. intros w o w' [= <- <-]. by repeat split. Qed.

Lemma access_update_stats f : always same_access (update_stats f).
Proof. intros w o w' [= <- <-]. by repeat split. Qed.

Lemma access_title_missing d : always same_access (title_missing d).
Proof.
  intros w o w' E. apply title_missing_pure in E as [-> _].
  apply same_access_refl.
Qed.

Lemma access_get_title d : always same_access (get_title d).
Proof.
  intros w o w' E. apply get_title_pure in E as [-> _].
  apply same_access_refl.
Qed.

Ltac access_steps :=
  repeat first
    [ apply access_ret
    | apply access_raise
    | apply access_read_file
    | apply access_write_file
    | apply access_path_exists
    | apply access_update_stats
    | apply access_title_missing
    | apply access_get_title
    | apply (always_weaken same_store same_access _ same_store_access),
        same_store_generate_articles
    | apply (always_weaken same_store same_access _ same_store_access),
        same_store_generate_replacer
    | apply access_bind; [| intros ?]
    | apply access_try; [| intros ?]
    | progress case_match ].

Lemma access_replace_articles sl p :
  always same_access (Articles.replace_image_in_markdown sl p).
Proof. unfold Articles.replace_image_in_markdown. access_steps. Qed.

Lemma access_replace_replacer sl p :
  always same_access (Replacer.replace_image_in_markdown sl p).
Proof. unfold Replacer.replace_image_in_markdown. access_steps. Qed.

(** The loop of generate_articles.py leaves the access rights and the
    clock as they were. *)
Lemma articles_loop_access sl fs : forall l w l' w',
  quiet w -> 0 <= Articles.current_delay l ->
  Articles.process_files sl fs (l, w) = (Ret tt, (l', w')) ->
  same_access w w'.
Proof.
  unfold Articles.process_files.
  induction fs as [|f fs IH]; intros l w l' w' Hq Hd.
  - intros [= <- <-]. apply same_access_refl.
  - destruct (calm_replace_articles sl f w Hq) as (o & w1 & E & Hni & Hq1).
    pose proof (articles_process_file_spec sl f l w o w1 E Hni Hq1 Hd) as Hstep.
    pose proof (access_replace_articles sl f w o w1 E) as Hacc.
    destruct (driver_transition _ _ o) as [[delay count] pauses] eqn:Et.
    assert (0 <= delay) as Hd'.
    { revert Et. unfold driver_transition.
      destruct o as [[|]|e|]; try done; repeat case_match;
        intros [= <- <- <-]; lia. }
    simpl. unfold bind. rewrite Hstep. intros E'.
    apply IH in E'; [|done..].
    eapply same_access_trans; [exact Hacc|].
    eapply same_access_trans; [|exact E']. by repeat split.
Qed.

Lemma create_summary_file_ok w :
  SUMMARY_FILE ∉ unwritable w ->
  Articles.create_summary_file w
  = (Ret tt,
     set_files (<[SUMMARY_FILE := Articles.render_summary (clock w) (stats w)]>
                  (files w)) w).
Proof.
  intros Hw. unfold Articles.create_summary_file, bind, get.
  by rewrite write_file_ok.
Qed.

Section Keeps.
Variable q : string.

Lemma keeps_refl w : keeps q w w.
Proof. done. Qed.

Lemma keeps_trans w1 w2 w3 : keeps q w1 w2 -> keeps q w2 w3 -> keeps q w1 w3.
Proof. unfold keeps. congruence. Qed.

Lemma keeps_same_store w w' : same_store w w' -> keeps q w w'.
Proof. unfold keeps. by intros (-> & _). Qed.

Lemma keeps_write_file p c : p <> q -> always (keeps q) (write_file p c).
Proof.
  intros Hp w o w'. unfold write_file, keeps.
  case_match; intros [= <- <-]; [done|]. simpl. by rewrite lookup_insert_ne.
Qed.

Lemma keeps_read_file p : always (keeps q) (read_file p).
Proof.
  intros w o w'. unfold read_file. by repeat case_match; intros [= <- <-].
Qed.

Lemma keeps_title_missing d : always (keeps q) (title_missing d).
Proof. intros w o w' E. by apply title_missing_pure in E as [-> _]. Qed.

Lemma keeps_get_title d : always (keeps q) (get_title d).
Proof. intros w o w' E. by apply get_title_pure in E as [-> _]. Qed.

Lemma keeps_generate title max_retries retry_delay :
  always (keeps q)
    (Replacer.generate_and_upload_image title max_retries retry_delay).
Proof.
  eapply always_weaken; [apply keeps_same_store|].
  apply same_store_generate_replacer.
Qed.

(** placeholder_image_replacer.py writes the article and its backup,
    nothing else. *)
Lemma keeps_replace_replacer sl p :
  p <> q -> p +:+ ".bak" <> q ->
  always (keeps q) (Replacer.replace_image_in_markdown sl p).
Proof.
  intros Hp Hb. unfold Replacer.replace_image_in_markdown.
  repeat first
    [ apply always_ret; apply keeps_refl
    | apply always_raise; apply keeps_refl
    | by apply keeps_write_file
    | apply keeps_read_file
    | apply keeps_title_missing
    | apply keeps_get_title
    | apply keeps_generate
    | apply always_bind; [apply keeps_trans | | intros ?]
    | apply always_try; [apply keeps_trans | | intros ?]
    | progress case_match ].
Qed.

(** Its loop, then, leaves any other file as it was. *)
Lemma replacer_loop_keeps sl fs : forall l w l' w',
  quiet w -> 0 <= Replacer.current_delay l ->
  Forall (fun p => p <> q /\ p +:+ ".bak" <> q) fs ->
  Replacer.process_files sl fs (l, w) = (Ret tt, (l', w')) ->
  keeps q w w'.
Proof.
  unfold Replacer.process_files.
  induction fs as [|f fs IH]; intros l w l' w' Hq Hd Hfs.
  - by intros [= <- <-].
  - apply Forall_cons in Hfs as [[Hp Hb] Hfs].
    destruct (calm_replace_replacer sl f w Hq) as (o & w1 & E & Hni & Hq1).
    pose proof (replacer_process_file_spec sl f l w o w1 E Hni Hq1 Hd) as Hstep.
    pose proof (keeps_replace_replacer sl f Hp Hb w o w1 E) as Hk.
    destruct (driver_transition _ _ o) as [[delay count] pauses] eqn:Et.
    assert (0 <= delay) as Hd'.
    { revert Et. unfold driver_transition.
      destruct o as [[|]|e|]; try done; repeat case_match;
        intros [= <- <- <-]; lia. }
    simpl. unfold bind. rewrite Hstep. intros E'.
    apply IH in E'; [|done..].
    unfold keeps in *. by rewrite E'.
Qed.

End Keeps.


Lemma articles_main_completes sl env fs w :
  configured env = true -> quiet w -> SUMMARY_FILE ∉ unwritable w -> fs <> [] ->
  exists w',
    Articles.main sl env fs w = (Ret Completed, w')
    /\ files w' !! SUMMARY_FILE
       = Some (Articles.render_summary (clock w') (stats w')).
Proof.
  intros Henv Hq Hw Hfs.
  unfold Articles.main, Articles.main_with. rewrite Henv. simpl.
  unfold Articles.process_all_markdown_files.
  destruct fs as [|f fs]; [done|].
  set (w0 := set_stats (Articles.set_total_files
                          (Z.of_nat (length (f :: fs))) (stats w)) w).
  destruct (articles_loop_runs sl (f :: fs) Articles.locals0 w0)
    as (l' & w1 & E & Hq1 & _); [done..|].
  pose proof (articles_loop_access sl (f :: fs) Articles.locals0 w0 _ _ Hq
                ltac:(done) E)
    as (_ & Hu & _).
  unfold bind, update_stats, modify. fold w0. rewrite E.
  rewrite create_summary_file_ok by (by rewrite Hu).
  eexists. split; [reflexivity|]. simpl. by rewrite lookup_insert_eq.
Qed.

Lemma articles_handler_reports {A} env (driver : M A) w o w1 :
  configured env = true -> driver w = (o, w1) ->
  SUMMARY_FILE ∉ unwritable w1 ->
  exists w',
    Articles.main_with env driver w
    = (Ret match o with
           | Ret _ => Completed
           | Raise e => Failed e
           | Interrupt => Interrupted
           end, w')
    /\ match o with
       | Ret _ => w' = w1
       | _ => files w' !! SUMMARY_FILE
              = Some (Articles.render_summary (clock w') (stats w'))
       end.
Proof.
  intros Henv E Hw. unfold Articles.main_with. rewrite Henv. simpl. rewrite E.
  destruct o as [a|e|]; [by eexists | |];
    unfold bind; rewrite create_summary_file_ok by done;
    (eexists; split; [reflexivity|]); simpl; by rewrite lookup_insert_eq.
Qed.

Lemma replacer_main_keeps sl env fs w :
  quiet w ->
  Forall (fun p => p <> SUMMARY_FILE /\ p +:+ ".bak" <> SUMMARY_FILE) fs ->
  exists e w',
    Replacer.main sl env fs w = (Ret e, w')
    /\ files w' !! SUMMARY_FILE = files w !! SUMMARY_FILE.
Proof.
  intros Hq Hfs. unfold Replacer.main, Replacer.main_with.
  destruct (configured env); simpl; [|by exists NotConfigured, w].
  unfold Replacer.process_all_markdown_files.
  destruct fs as [|f fs]; [by exists Completed, w|].
  destruct (replacer_loop_runs sl (f :: fs) Replacer.locals0 w)
    as (l' & w' & E & _); [done..|].
  pose proof (replacer_loop_keeps SUMMARY_FILE sl (f :: fs) Replacer.locals0
                w _ _ Hq ltac:(done) Hfs E) as Hk.
  rewrite E. by exists Completed, w'.
Qed.



(** An interrupt that lands in the first pause of the batch: the handler
    of generate_articles.py writes the report, with the one file counted
    as skipped. *)
Example interrupted_batch_reports :
  (Articles.main Sample.safe_load Sample.env [Sample.a_md]
     Sample.interrupted_world).1 = Ret Interrupted
  /\ skipped_files
       (stats (Articles.main Sample.safe_load Sample.env [Sample.a_md]
                 Sample.interrupted_world).2) = 1
  /\ is_Some (files (Articles.main Sample.safe_load Sample.env [Sample.a_md]
                       Sample.interrupted_world).2 !! SUMMARY_FILE).
Proof. split_and!; [by vm_compute.. |]. by vm_compute; eexists. Qed.

(* ===================================================================== *)
(** ** Whole runs *)
(* ===================================================================== *)

(** When every generation call raises with the same message, the function
    sleeps after each attempt but the last, each time twice as long. *)
Lemma generation_all_raise msg max_retries retry_delay :
  0 <= retry_delay ->
  forall len a w,
    (a + len = S max_retries)%nat -> quiet w ->
    (forall i, gemini w i = GenRaises msg) ->
    exists w',
      for_first (Articles.generation_attempt max_retries retry_delay) (seq a len) w
      = (Ret None, w')
      /\ slept w' = slept w ++
           map (fun k => retry_delay
                         * 2 ^ (Z.of_nat k - 1 + (if rate_limited msg then 1 else 0)))
               (seq a (len - 1)).
Proof.
  intros Hd. induction len as [|len IH]; intros a w Ha Hq Hg.
  - exists w. simpl. by rewrite app_nil_r.
  - destruct (articles_attempt_raises max_retries retry_delay a w Hd Hq msg (Hg _))
      as (w1 & E1 & Hs1).
    destruct (returns_generation_attempt_articles max_retries retry_delay a Hd w Hq)
      as (r & w1' & E1' & Hev).
    rewrite E1 in E1'. injection E1' as <- <-.
    destruct (IH (S a) w1) as (w2 & E2 & Hs2);
      [lia | by eapply evolves_quiet | by intros i; destruct Hev as [_ _ _ -> _ _ _ _ _] |].
    exists w2. simpl. unfold bind. rewrite E1. split; [done|].
    rewrite Hs2, Hs1. destruct len as [|len'].
    + assert ((a <? max_retries)%nat = false) as -> by (apply Nat.ltb_ge; lia).
      simpl. by rewrite !app_nil_r.
    + assert ((a <? max_retries)%nat = true) as -> by (apply Nat.ltb_lt; lia).
      simpl. rewrite Nat.sub_0_r. by rewrite <- app_assoc.
Qed.

Lemma generate_all_raise title msg max_retries retry_delay w :
  0 <= retry_delay -> quiet w -> (forall i, gemini w i = GenRaises msg) ->
  exists w',
    Articles.generate_and_upload_image title max_retries retry_delay w = (Ret None, w')
    /\ slept w' = slept w ++
         map (fun k => retry_delay
                       * 2 ^ (Z.of_nat k - 1 + (if rate_limited msg then 1 else 0)))
             (seq 1 (max_retries - 1)).
Proof.
  intros Hd Hq Hg. unfold Articles.generate_and_upload_image, range1.
  by apply generation_all_raise.
Qed.

(** The first example of the specification: the title is found, generation
    and upload succeed, the sentinel is replaced and the backup holds the
    original text. *)
Example specification_example_success :
  let w' := (Replacer.replace_image_in_markdown Sample.safe_load Sample.a_md
               (Sample.world_of Sample.doc_foo Sample.ok_answer)).2 in
  files w' !! Sample.a_md
  = Some ("---" +:+ Sample.nl +:+ "title: Foo" +:+ Sample.nl +:+ "---" +:+ Sample.nl
          +:+ "See ![img](https://host/new.png)")
  /\ files w' !! (Sample.a_md +:+ ".bak") = Some Sample.doc_foo.
Proof. split; by vm_compute. Qed.

(** The second example of the specification: 429 on every upload gives no
    URL, a failed replacement and no change of the file. The pauses are
    those of five upload loops and of the four retries between them. *)
Example specification_example_rate_limited :
  let w := Sample.world_of Sample.doc_foo Sample.rate_limit_answer in
  let r := Articles.replace_image_in_markdown Sample.safe_load Sample.a_md w in
  r.1 = Ret false
  /\ files r.2 = files w
  /\ failed_replacements (stats r.2) = 1
  /\ slept r.2 = [5; 10; 20; 40; 80; 5;
                  5; 10; 20; 40; 80; 10;
                  5; 10; 20; 40; 80; 20;
                  5; 10; 20; 40; 80; 40;
                  5; 10; 20; 40; 80].
Proof. split_and!; by vm_compute. Qed.

(** The only exceptions that reach the batch driver come from the files;
    their messages carry the path, so a path with "429" in it doubles the
    delay. *)
Example driver_doubles_on_signature :
  (Replacer.process_all_markdown_files Sample.safe_load
     ["generated-articles/429.md"] Sample.empty_world).1
  = Ret (Some (Replacer.Locals 0 ["429.md"] 6 1))
  /\ slept (Replacer.process_all_markdown_files Sample.safe_load
              ["generated-articles/429.md"] Sample.empty_world).2 = [6].
Proof. split; by vm_compute. Qed.

(** The regex fallback of generate_articles.py on small texts *)
Example title_fallback_next_line :
  Articles.title_fallback ("title:" +:+ Sample.nl +:+ Sample.nl +:+ "Foo bar  "
                           +:+ Sample.nl +:+ "rest") = Some "Foo bar".
Proof. by vm_compute. Qed.

Example title_fallback_blank :
  Articles.title_fallback ("intro" +:+ Sample.nl +:+ "title: " +:+ Sample.nl)
  = Some "".
Proof. by vm_compute. Qed.

Example title_fallback_not_at_line_start :
  Articles.title_fallback ("subtitle: Foo" +:+ Sample.nl +:+ "body") = None.
Proof. by vm_compute. Qed.

Example title_fallback_only_newlines :
  Articles.title_fallback ("title:" +:+ Sample.nl +:+ Sample.nl) = None.
Proof. by vm_compute. Qed.

(** Between two files the delay stays within its base and its cap and the
    failure count below the threshold: the count reaches 3 only inside one
    turn of the loop, which sets it back at once. *)
Lemma driver_transition_bounds current_delay failures o :
  o <> Interrupt -> 3 <= current_delay <= 60 -> 0 <= failures <= 2 ->
  let '(delay, count, pauses) := driver_transition current_delay failures o in
  3 <= delay <= 60 /\ 0 <= count <= 2
  /\ Forall (fun d => 3 <= d <= 120) pauses.
Proof.
  intros Hni Hd Hf. unfold driver_transition, SUCCESS_DELAY.
  destruct o as [[|]|e|]; [| | |done]; simpl.
  - split_and!; try lia. repeat constructor; lia.
  - destruct (Z.leb_spec 3 (failures + 1)); split_and!; try lia;
      repeat constructor; lia.
  - destruct (rate_limited e);
      destruct (Z.leb_spec 3 (failures + 1)); split_and!; try lia;
      repeat constructor; lia.
Qed.

(* ===================================================================== *)
(** ** Budgets: how many calls, how long a wait *)
(* ===================================================================== *)

Lemma total_sleep_app w l :
  total_sleep (set_slept (slept w ++ l) w) = total_sleep w + sum_Z l.
Proof.
  unfold total_sleep, sum_Z. simpl.
  induction (slept w) as [|d ds IH]; simpl; lia.
Qed.

Lemma spent_refl w : spent 0 0 0 w w.
Proof. unfold spent. lia. Qed.

Lemma spent_trans g1 u1 t1 g2 u2 t2 w1 w2 w3 :
  spent g1 u1 t1 w1 w2 -> spent g2 u2 t2 w2 w3 ->
  spent (g1 + g2) (u1 + u2) (t1 + t2) w1 w3.
Proof. unfold spent. lia. Qed.

Lemma spent_weaken g u t g' u' t' w w' :
  (g <= g')%nat -> (u <= u')%nat -> t <= t' ->
  spent g u t w w' -> spent g' u' t' w w'.
Proof. unfold spent. lia. Qed.

Lemma spends_weaken g u t g' u' t' {A} (m : M A) :
  (g <= g')%nat -> (u <= u')%nat -> t <= t' ->
  spends g u t m -> spends g' u' t' m.
Proof. intros ? ? ? H w o w' E. eapply spent_weaken; eauto. Qed.

Lemma spends_ret {A} (a : A) : spends 0 0 0 (ret a).
Proof. intros w o w' [= <- <-]. apply spent_refl. Qed.

Lemma spends_raise {A} e : spends 0 0 0 (@raise world A e).
Proof. intros w o w' [= <- <-]. apply spent_refl. Qed.

Lemma spends_bind g1 u1 t1 g2 u2 t2 {A B} (m : M A) (k : A -> M B) :
  0 <= t2 ->
  spends g1 u1 t1 m -> (forall a, spends g2 u2 t2 (k a)) ->
  spends (g1 + g2) (u1 + u2) (t1 + t2) (bind m k).
Proof.
  intros Ht Hm Hk w o w'. unfold bind.
  destruct (m w) as [[a|e|] w1] eqn:E; specialize (Hm _ _ _ E).
  - intros E2. eapply spent_trans; [done|]. by eapply Hk.
  - intros [= <- <-]. eapply spent_weaken; [| | |exact Hm]; lia.
  - intros [= <- <-]. eapply spent_weaken; [| | |exact Hm]; lia.
Qed.

Lemma spends_sleep d : spends 0 0 (Z.max 0 d) (sleep d).
Proof.
  intros w o w'. unfold sleep.
  destruct (Z.ltb_spec d 0).
  - intros [= <- <-]. unfold spent. lia.
  - assert (spent 0 0 (Z.max 0 d) w (set_slept (slept w ++ [d]) w)) as H0.
    { unfold spent. rewrite total_sleep_app. unfold sum_Z. simpl. lia. }
    by destruct (decide _); intros [= <- <-].
Qed.

Lemma spends_upload : spends 0 1 0 upload_to_cloudinary.
Proof.
  intros w o w'. unfold upload_to_cloudinary.
  repeat case_match; intros [= <- <-]; unfold spent, total_sleep; simpl; lia.
Qed.

Lemma spends_generate_content : spends 1 0 0 generate_content.
Proof.
  intros w o w'. unfold generate_content.
  repeat case_match; intros [= <- <-]; unfold spent, total_sleep; simpl; lia.
Qed.

Lemma sum_Z_nonneg xs : Forall (fun x => 0 <= x) xs -> 0 <= sum_Z xs.
Proof. induction 1; unfold sum_Z in *; simpl; lia. Qed.

(** A loop spends at most what its turns spend together. *)
Lemma spends_for_first g u (t : nat -> Z) {A} (body : nat -> M (option A)) xs :
  (forall x, 0 <= t x) ->
  (forall x, spends g u (t x) (body x)) ->
  spends (length xs * g) (length xs * u) (sum_Z (map t xs)) (for_first body xs).
Proof.
  intros Ht Hb. induction xs as [|x xs IH]; simpl.
  - apply spends_ret.
  - intros w o w'. unfold bind.
    destruct (body x w) as [[[v|]|e|] w1] eqn:E; specialize (Hb _ _ _ _ E).
    + intros [= <- <-]. eapply spent_weaken; [| | |exact Hb]; try lia.
      assert (0 <= sum_Z (map t xs)).
      { apply sum_Z_nonneg, Forall_forall. intros y Hy.
        apply list_elem_of_fmap in Hy as (z & -> & _). apply Ht. }
      unfold sum_Z in *. simpl. lia.
    + intros E2. apply IH in E2.
      eapply spent_weaken; [| | |exact (spent_trans _ _ _ _ _ _ _ _ _ Hb E2)];
        unfold sum_Z; simpl; lia.
    + intros [= <- <-]. eapply spent_weaken; [| | |exact Hb]; try lia.
      assert (0 <= sum_Z (map t xs)).
      { apply sum_Z_nonneg, Forall_forall. intros y Hy.
        apply list_elem_of_fmap in Hy as (z & -> & _). apply Ht. }
      unfold sum_Z in *. simpl. lia.
    + intros [= <- <-]. eapply spent_weaken; [| | |exact Hb]; try lia.
      assert (0 <= sum_Z (map t xs)).
      { apply sum_Z_nonneg, Forall_forall. intros y Hy.
        apply list_elem_of_fmap in Hy as (z & -> & _). apply Ht. }
      unfold sum_Z in *. simpl. lia.
Qed.

Lemma sleep_outcome d w o w' :
  0 <= d -> sleep d w = (o, w') ->
  (o = Ret tt \/ o = Interrupt) /\ spent 0 0 d w w'.
Proof.
  intros Hd E. pose proof (spends_sleep d w o w' E) as Hs.
  rewrite Z.max_r in Hs by done. split; [|done].
  revert E. unfold sleep. destruct (Z.ltb_spec d 0); [lia|].
  destruct (decide _); intros [= <- <-]; auto.
Qed.

(** One turn of the upload loop: one upload, at most one pause, and no
    exception left. *)
Lemma upload_attempt_budget retry_delay j w o w' :
  0 <= retry_delay ->
  upload_attempt_body retry_delay j w = (o, w') ->
  spent 0 1 (backoff retry_delay (Z.of_nat j - 1)) w w'
  /\ forall e, o <> Raise e.
Proof.
  intros Hd. pose proof (backoff_nonneg retry_delay (Z.of_nat j - 1) Hd) as HB.
  unfold upload_attempt_body, try_except, bind, when, ret.
  destruct (upload_to_cloudinary w) as [[url|e|] w1] eqn:Eu;
    pose proof (spends_upload _ _ _ Eu) as Hu.
  - destruct (truthy url).
    + intros [= <- <-]. split; [|done]. unfold spent in *; lia.
    + destruct (sleep _ w1) as [[[]|e|] w2] eqn:Es;
        destruct (sleep_outcome _ _ _ _ HB Es) as [[?|?] Hs]; try done;
        intros [= <- <-]; (split; [|done]); unfold spent in *; lia.
  - destruct (upload_rate_limited e).
    + destruct (sleep _ w1) as [[[]|e'|] w2] eqn:Es;
        destruct (sleep_outcome _ _ _ _ HB Es) as [[?|?] Hs]; try done;
        intros [= <- <-]; (split; [|done]); unfold spent in *; lia.
    + intros [= <- <-]. split; [|done]. unfold spent in *; lia.
  - intros [= <- <-]. split; [|done]. unfold spent in *; lia.
Qed.

Lemma never_raises_for_first {X A} (body : X -> M (option A)) xs :
  (forall x, never_raises (body x)) -> never_raises (for_first body xs).
Proof.
  intros Hb. induction xs as [|x xs IH]; simpl.
  - by intros w o w' [= <- <-].
  - intros w o w'. unfold bind.
    destruct (body x w) as [[[v|]|e|] w1] eqn:E.
    + by intros [= <- <-].
    + apply IH.
    + by destruct (Hb _ _ _ _ E e).
    + by intros [= <- <-].
Qed.

Lemma upload_budget_nonneg max_retries retry_delay :
  0 <= retry_delay -> 0 <= upload_budget max_retries retry_delay.
Proof.
  intros Hd. apply sum_Z_nonneg, Forall_forall. intros y Hy.
  apply list_elem_of_fmap in Hy as (z & -> & _). by apply backoff_nonneg.
Qed.

Lemma upload_loop_budget max_retries retry_delay w o w' :
  0 <= retry_delay ->
  upload_with_retries max_retries retry_delay w = (o, w') ->
  spent 0 max_retries (upload_budget max_retries retry_delay) w w'
  /\ forall e, o <> Raise e.
Proof.
  intros Hd E. split.
  - pose proof (spends_for_first 0 1
                  (fun j => backoff retry_delay (Z.of_nat j - 1))
                  (upload_attempt_body retry_delay) (range1 max_retries)) as H.
    unfold upload_with_retries in E. apply H in E.
    + unfold range1 in E. rewrite length_seq in E.
      unfold upload_budget, range1, spent in *. lia.
    + intros x. by apply backoff_nonneg.
    + intros x w0 o0 w0' E0. by apply (upload_attempt_budget retry_delay x w0 o0).
  - revert E. apply never_raises_for_first.
    intros x w0 o0 w0' E0. by apply (upload_attempt_budget retry_delay x w0 o0 w0').
Qed.

Lemma backoff_mono retry_delay e :
  0 <= retry_delay -> backoff retry_delay (e - 1) <= backoff retry_delay e.
Proof.
  intros Hd. unfold backoff. apply Z.mul_le_mono_nonneg_l; [done|].
  destruct (Z.lt_ge_cases (e - 1) 0) as [Hneg|Hpos].
  - rewrite (Z.pow_neg_r 2 (e - 1)) by done. apply Z.pow_nonneg. lia.
  - apply Z.pow_le_mono_r; lia.
Qed.

Lemma generation_handler_budget max_retries retry_delay k e w o w' :
  0 <= retry_delay ->
  generation_handler max_retries retry_delay k e w = (o, w') ->
  spent 0 0 (if (k <? max_retries)%nat then backoff retry_delay (Z.of_nat k) else 0)
        w w'
  /\ forall e', o <> Raise e'.
Proof.
  intros Hd.
  pose proof (backoff_nonneg retry_delay (Z.of_nat k) Hd) as HB.
  pose proof (backoff_nonneg retry_delay (Z.of_nat k - 1) Hd) as HB'.
  pose proof (backoff_mono retry_delay (Z.of_nat k) Hd) as Hm.
  unfold generation_handler, bind, when, ret.
  destruct (rate_limited e), (k <? max_retries)%nat;
    try (intros [= <- <-]; split; [unfold spent; lia | done]).
  - destruct (sleep _ w) as [[[]|e'|] w2] eqn:Es;
      destruct (sleep_outcome _ _ _ _ HB Es) as [[?|?] Hs]; try done;
      intros [= <- <-]; (split; [|done]); unfold spent in *; lia.
  - destruct (sleep _ w) as [[[]|e'|] w2] eqn:Es;
      destruct (sleep_outcome _ _ _ _ HB' Es) as [[?|?] Hs]; try done;
      intros [= <- <-]; (split; [|done]); unfold spent in *; lia.
Qed.

Lemma generation_fallthrough_budget max_retries retry_delay k w o w' :
  0 <= retry_delay ->
  generation_fallthrough max_retries retry_delay k w = (o, w') ->
  spent 0 0 (if (k <? max_retries)%nat
             then backoff retry_delay (Z.of_nat k - 1) else 0) w w'
  /\ forall e', o <> Raise e'.
Proof.
  intros Hd.
  pose proof (backoff_nonneg retry_delay (Z.of_nat k - 1) Hd) as HB'.
  unfold generation_fallthrough, bind, when, ret.
  destruct (k <? max_retries)%nat;
    try (intros [= <- <-]; split; [unfold spent; lia | done]).
  destruct (sleep _ w) as [[[]|e'|] w2] eqn:Es;
    destruct (sleep_outcome _ _ _ _ HB' Es) as [[?|?] Hs]; try done;
    intros [= <- <-]; (split; [|done]); unfold spent in *; lia.
Qed.

(** One turn of the generation loop: one generation call, at most
    [max_retries] uploads, and either the pause after a failed generation
    or the pauses of the upload loop and the pause after it. *)
Lemma generation_attempt_budget max_retries retry_delay k w o w' :
  0 <= retry_delay ->
  Articles.generation_attempt max_retries retry_delay k w = (o, w') ->
  spent 1 max_retries (attempt_budget max_retries retry_delay k) w w'
  /\ forall e, o <> Raise e.
Proof.
  intros Hd.
  pose proof (backoff_nonneg retry_delay (Z.of_nat k) Hd) as HB.
  pose proof (backoff_nonneg retry_delay (Z.of_nat k - 1) Hd) as HB'.
  pose proof (upload_budget_nonneg max_retries retry_delay Hd) as HU.
  assert (forall e w1 o w',
            spent 1 0 0 w w1 ->
            generation_handler max_retries retry_delay k e w1 = (o, w') ->
            spent 1 max_retries (attempt_budget max_retries retry_delay k) w w'
            /\ forall e', o <> Raise e') as Hh.
  { intros e w1 o1 w1' Hg E.
    destruct (generation_handler_budget _ _ _ _ _ _ _ Hd E) as [Hs Hn].
    split; [|done]. unfold attempt_budget, spent in *.
    destruct (k <? max_retries)%nat; simpl; lia. }
  assert (forall w1 o w',
            spent 1 max_retries (upload_budget max_retries retry_delay) w w1 ->
            generation_fallthrough max_retries retry_delay k w1 = (o, w') ->
            spent 1 max_retries (attempt_budget max_retries retry_delay k) w w'
            /\ forall e', o <> Raise e') as Hf.
  { intros w1 o1 w1' Hg E.
    destruct (generation_fallthrough_budget _ _ _ _ _ _ Hd E) as [Hs Hn].
    split; [|done]. unfold attempt_budget, spent in *.
    destruct (k <? max_retries)%nat; simpl; lia. }
  unfold Articles.generation_attempt, try_except, bind.
  destruct (generate_content w) as [[resp|e|] w1] eqn:Eg;
    pose proof (spends_generate_content _ _ _ Eg) as Hg.
  - destruct resp as [?| |[[[mt|] [d|]]|]]; simpl;
      try (by apply Hh);
      try (destruct (generation_fallthrough _ _ _ w1) as [[r|e|] w2] eqn:Ef;
           destruct (Hf w1 _ _ ltac:(unfold spent in *; lia) Ef) as [Hs Hn];
           [intros [= <- <-]; by split
           |by destruct (Hn e)
           |intros [= <- <-]; by split]).
    unfold save_and_upload.
    destruct (upload_with_retries _ _ w1) as [[[url|]|e|] w2] eqn:Eu;
      destruct (upload_loop_budget _ _ _ _ _ Hd Eu) as [Hu Hnu].
    + intros [= <- <-]. split; [|done]. unfold attempt_budget, spent in *.
      destruct (k <? max_retries)%nat; simpl; lia.
    + destruct (generation_fallthrough _ _ _ w2) as [[r|e|] w3] eqn:Ef;
        destruct (Hf w2 _ _ ltac:(unfold spent in *; lia) Ef) as [Hs Hn];
        [intros [= <- <-]; by split
        |by destruct (Hn e)
        |intros [= <- <-]; by split].
    + by destruct (Hnu e).
    + intros [= <- <-]. split; [|done]. unfold attempt_budget, spent in *.
      destruct (k <? max_retries)%nat; simpl; lia.
  - by apply Hh.
  - intros [= <- <-]. split; [|done]. unfold attempt_budget, spent in *.
    destruct (k <? max_retries)%nat; simpl; lia.
Qed.

Lemma attempt_budget_nonneg max_retries retry_delay k :
  0 <= retry_delay -> 0 <= attempt_budget max_retries retry_delay k.
Proof.
  intros Hd. unfold attempt_budget.
  pose proof (backoff_nonneg retry_delay (Z.of_nat k) Hd).
  destruct (negb _); lia.
Qed.

(** X1: [generate_and_upload_image] of both scripts, however it ends and
    whatever the services answer, makes at most [max_retries] generation
    calls and [max_retries * max_retries] uploads, sleeps at most the sum
    over its turns of the longer of the two ways a turn can wait, and never
    lets an exception out. *)
Theorem generation_within_budget
    (title : string) (max_retries : nat) (retry_delay : Z) (w : world) :
  0 <= retry_delay ->
  let r := Articles.generate_and_upload_image title max_retries retry_delay w in
  spent max_retries (max_retries * max_retries)
        (generation_budget max_retries retry_delay) w r.2
  /\ (forall e, r.1 <> Raise e)
  /\ Replacer.generate_and_upload_image title max_retries retry_delay w = r.
Proof.
  intros Hd r. subst r.
  destruct (Articles.generate_and_upload_image _ _ _ w) as [o w'] eqn:E. simpl.
  split_and!; [| |by rewrite generate_and_upload_agree].
  - pose proof (spends_for_first 1 max_retries
                  (attempt_budget max_retries retry_delay)
                  (Articles.generation_attempt max_retries retry_delay)
                  (range1 max_retries)) as H.
    unfold Articles.generate_and_upload_image in E. apply H in E.
    + unfold range1 in E. rewrite length_seq in E.
      unfold generation_budget, range1, spent in *. lia.
    + intros x. by apply attempt_budget_nonneg.
    + intros x w0 o0 w0' E0.
      by apply (generation_attempt_budget max_retries retry_delay x w0 o0).
  - revert E. apply never_raises_for_first.
    intros x w0 o0 w0' E0.
    by apply (generation_attempt_budget max_retries retry_delay x w0 o0 w0').
Qed.

Lemma generation_within_budget_witness :
  let w := Sample.world_of Sample.doc_foo Sample.rate_limit_answer in
  let r := Articles.generate_and_upload_image "Foo" 3 5 w in
  0 <= 5
  /\ spent 3 (3 * 3) (generation_budget 3 5) w r.2
  /\ (forall e, r.1 <> Raise e)
  /\ Replacer.generate_and_upload_image "Foo" 3 5 w = r.
Proof.
  intros w r. split; [lia|].
  exact (generation_within_budget "Foo" 3 5 w ltac:(lia)).
Defined.

(** X2: with the scripts' own settings one call of
    [generate_and_upload_image] makes at most 5 generation calls and 25
    uploads and sleeps at most 850 seconds; a service that answers every
    upload with 429 costs exactly that. *)
Theorem configured_generation_budget (title : string) (w : world) :
  let r := Articles.generate_and_upload_image title MAX_RETRIES BASE_RETRY_DELAY w in
  (gemini_calls r.2 <= gemini_calls w + 5)%nat
  /\ (cloudinary_calls r.2 <= cloudinary_calls w + 25)%nat
  /\ total_sleep r.2 <= total_sleep w + 850
  /\ (let v := (Articles.generate_and_upload_image title MAX_RETRIES
                  BASE_RETRY_DELAY Sample2.throttled_image_world).2 in
      gemini_calls v = 5%nat /\ cloudinary_calls v = 25%nat
      /\ total_sleep v = 850).
Proof.
  intros r.
  destruct (generation_within_budget title MAX_RETRIES BASE_RETRY_DELAY w
              ltac:(done)) as (Hs & _ & _).
  fold r in Hs.
  assert (generation_budget MAX_RETRIES BASE_RETRY_DELAY = 850) as Hb
    by (by vm_compute).
  rewrite Hb in Hs. unfold spent, MAX_RETRIES in Hs.
  split_and!; try lia. by vm_compute.
Qed.

(* ===================================================================== *)
(** ** Where a returned URL comes from *)
(* ===================================================================== *)

Lemma upload_order_refl w : upload_order w w.
Proof. by split. Qed.

Lemma upload_order_trans w1 w2 w3 :
  upload_order w1 w2 -> upload_order w2 w3 -> upload_order w1 w3.
Proof. intros [E1 H1] [E2 H2]. split; [congruence | lia]. Qed.

Lemma order_sleep d : always upload_order (sleep d).
Proof.
  intros w o w'. unfold sleep.
  repeat case_match; intros [= <- <-]; by split.
Qed.

Lemma order_upload : always upload_order upload_to_cloudinary.
Proof.
  intros w o w'. unfold upload_to_cloudinary.
  repeat case_match; intros [= <- <-]; split; simpl; done || lia.
Qed.

Lemma order_generate_content : always upload_order generate_content.
Proof.
  intros w o w'. unfold generate_content.
  repeat case_match; intros [= <- <-]; by split.
Qed.

Ltac order_steps :=
  repeat first
    [ apply always_ret; apply upload_order_refl
    | apply always_raise; apply upload_order_refl
    | apply order_sleep
    | apply order_upload
    | apply order_generate_content
    | apply always_when; [apply upload_order_refl |]
    | apply always_bind; [apply upload_order_trans | | intros ?]
    | apply always_try; [apply upload_order_trans | | intros ?]
    | apply always_for_first;
        [apply upload_order_refl | apply upload_order_trans | intros ?]
    | progress case_match ].

Lemma order_upload_attempt retry_delay j :
  always upload_order (upload_attempt_body retry_delay j).
Proof. unfold upload_attempt_body. order_steps. Qed.

Lemma order_generation_attempt max_retries retry_delay k :
  always upload_order (Articles.generation_attempt max_retries retry_delay k).
Proof.
  unfold Articles.generation_attempt, generation_handler, generation_fallthrough,
    save_and_upload, upload_with_retries, upload_attempt_body.
  order_steps.
Qed.

(** A loop that is left with a value was left by one of its turns. *)
Lemma for_first_some (R : world -> world -> Prop) {X A}
    (body : X -> M (option A)) xs :
  (forall w, R w w) -> (forall w1 w2 w3, R w1 w2 -> R w2 w3 -> R w1 w3) ->
  (forall x, always R (body x)) ->
  forall w v w',
    for_first body xs w = (Ret (Some v), w') ->
    exists x w0, x ∈ xs /\ R w w0 /\ body x w0 = (Ret (Some v), w').
Proof.
  intros Hrefl Htrans Hb. induction xs as [|x xs IH]; intros w v w'; simpl.
  - intros [= ].
  - unfold bind. destruct (body x w) as [[[v0|]|e|] w1] eqn:E; try done.
    + intros [= <- <-]. exists x, w. split_and!; [left | done | done].
    + intros E2. destruct (IH _ _ _ E2) as (y & w0 & Hy & HR & Ey).
      exists y, w0. split_and!; [by right | | done].
      eapply Htrans; [|done]. by eapply Hb.
Qed.

Lemma upload_returns_answer w url w' :
  upload_to_cloudinary w = (Ret url, w') ->
  cloudinary_calls w' = S (cloudinary_calls w)
  /\ exists text, cloudinary w (cloudinary_calls w) = Response 200 text (Some url).
Proof.
  unfold upload_to_cloudinary.
  destruct (cloudinary w (cloudinary_calls w)) as [msg|code text [u|]];
    repeat case_match; intros [= <- <-]; try done.
  split; [done|]. exists text. f_equal. lia.
Qed.

Lemma upload_attempt_some retry_delay j w url w' :
  upload_attempt_body retry_delay j w = (Ret (Some url), w') ->
  truthy url = true /\ upload_to_cloudinary w = (Ret url, w').
Proof.
  unfold upload_attempt_body, try_except, bind, when, ret.
  destruct (upload_to_cloudinary w) as [[u|e|] w1]; [| |done].
  - destruct (truthy u) eqn:Ht; [by intros [= <- <-]|].
    destruct (sleep _ w1) as [[[]|e|] w2]; try done.
    destruct (upload_rate_limited e); [|done].
    by destruct (sleep _ w2) as [[[]|e'|] w3].
  - destruct (upload_rate_limited e); [|done].
    by destruct (sleep _ w1) as [[[]|e'|] w2].
Qed.

Lemma handler_gives_no_url max_retries retry_delay k e w url w' :
  generation_handler max_retries retry_delay k e w <> (Ret (Some url), w').
Proof.
  unfold generation_handler, bind, when, ret.
  destruct (rate_limited e), (k <? max_retries)%nat; try done;
    by destruct (sleep _ w) as [[[]|e'|] w2].
Qed.

Lemma fallthrough_gives_no_url max_retries retry_delay k w url w' :
  generation_fallthrough max_retries retry_delay k w <> (Ret (Some url), w').
Proof.
  unfold generation_fallthrough, bind, when, ret.
  destruct (k <? max_retries)%nat; try done;
    by destruct (sleep _ w) as [[[]|e'|] w2].
Qed.

Lemma generation_attempt_some max_retries retry_delay k w url w' :
  Articles.generation_attempt max_retries retry_delay k w = (Ret (Some url), w') ->
  exists w1,
    upload_order w w1
    /\ upload_with_retries max_retries retry_delay w1 = (Ret (Some url), w').
Proof.
  unfold Articles.generation_attempt, try_except, bind.
  destruct (generate_content w) as [[resp|e|] w1] eqn:Eg; [| |done].
  - pose proof (order_generate_content _ _ _ Eg) as Ho.
    assert (forall e, generation_handler max_retries retry_delay k e w1
                      <> (Ret (Some url), w')) as Hh
      by (intros; apply handler_gives_no_url).
    assert (forall w1 o w2,
              generation_fallthrough max_retries retry_delay k w1 = (o, w2) ->
              (match o with
               | Ret a => (Ret a, w2)
               | Raise e => generation_handler max_retries retry_delay k e w2
               | Interrupt => (Interrupt, w2)
               end) <> (Ret (Some url), w')) as Hf.
    { intros w0 o w2 Ef. destruct o as [a|e|].
      - intros [= -> ->]. by apply fallthrough_gives_no_url in Ef.
      - apply handler_gives_no_url.
      - done. }
    destruct resp as [?| |[[[mt|] [d|]]|]]; simpl;
      try (by intros E; apply Hh in E);
      try (by destruct (generation_fallthrough max_retries retry_delay k w1)
                as [o w2] eqn:Ef; intros E; destruct (Hf _ _ _ Ef E)).
    unfold save_and_upload.
    destruct (upload_with_retries _ _ w1) as [[[u|]|e|] w2] eqn:Eu; try done.
    + intros [= <- <-]. by exists w1.
    + destruct (generation_fallthrough _ _ _ w2) as [[a|e|] w3] eqn:Ef.
      * intros [= -> ->]. by apply fallthrough_gives_no_url in Ef.
      * intros E. by apply handler_gives_no_url in E.
      * done.
    + intros E. by apply handler_gives_no_url in E.
  - intros E. by apply handler_gives_no_url in E.
Qed.

(** X3: a URL that [generate_and_upload_image] returns is never empty and
    is the [secure_url] of an upload of this very call that the service
    answered with status 200. *)
Theorem returned_url_was_uploaded
    (title : string) (max_retries : nat) (retry_delay : Z) (w w' : world)
    (url : string) :
  Articles.generate_and_upload_image title max_retries retry_delay w
    = (Ret (Some url), w') ->
  truthy url = true
  /\ Replacer.generate_and_upload_image title max_retries retry_delay w
     = (Ret (Some url), w')
  /\ exists i text,
       (cloudinary_calls w <= i < cloudinary_calls w')%nat
       /\ cloudinary w i = Response 200 text (Some url).
Proof.
  intros E. split_and!; [| by rewrite generate_and_upload_agree |].
  all: unfold Articles.generate_and_upload_image in E;
    apply (for_first_some upload_order) in E
      as (k & w0 & _ & Ho0 & Ek);
      [| apply upload_order_refl | apply upload_order_trans
       | intros x; apply order_generation_attempt];
    apply generation_attempt_some in Ek as (w1 & Ho1 & Eu);
    unfold upload_with_retries in Eu;
    apply (for_first_some upload_order) in Eu
      as (j & w2 & _ & Ho2 & Ej);
      [| apply upload_order_refl | apply upload_order_trans
       | intros x; apply order_upload_attempt];
    apply upload_attempt_some in Ej as [Ht Eup].
  - done.
  - apply upload_returns_answer in Eup as [Hc [text Ha]].
    pose proof (upload_order_trans _ _ _ Ho0 (upload_order_trans _ _ _ Ho1 Ho2))
      as [Hsame Hle].
    exists (cloudinary_calls w2), text. split; [lia|]. by rewrite <- Hsame.
Qed.

Lemma returned_url_was_uploaded_witness :
  let w := Sample.world_of Sample.doc_foo Sample.ok_answer in
  let w' := (Articles.generate_and_upload_image "Foo" 5 5 w).2 in
  Articles.generate_and_upload_image "Foo" 5 5 w = (Ret (Some Sample.new_url), w')
  /\ truthy Sample.new_url = true
  /\ exists i text,
       (cloudinary_calls w <= i < cloudinary_calls w')%nat
       /\ cloudinary w i = Response 200 text (Some Sample.new_url).
Proof.
  intros w w'.
  assert (Articles.generate_and_upload_image "Foo" 5 5 w
          = (Ret (Some Sample.new_url), w')) as E by (by vm_compute).
  destruct (returned_url_was_uploaded "Foo" 5 5 w w' Sample.new_url E)
    as (Ht & _ & Hi).
  by split_and!.
Defined.

(* ===================================================================== *)
(** ** Which upload errors make the upload loop wait *)
(* ===================================================================== *)

Lemma lower_app s t : PyStr.lower (s +:+ t) = PyStr.lower s +:+ PyStr.lower t.
Proof.
  induction s as [|c s IH]; [done|].
  rewrite string_app_cons. simpl. rewrite string_app_cons. by f_equal.
Qed.

Lemma server_error_signature text :
  upload_rate_limited ("Cloudinary server error: " +:+ text)
  = PyStr.contains "rate limit" (PyStr.lower text).
Proof.
  unfold upload_rate_limited. rewrite lower_app.
  change (PyStr.lower "Cloudinary server error: ") with "cloudinary server error: ".
  rewrite !string_app_cons. rewrite !contains_cons.
  by vm_compute.
Qed.

(** X4: in the upload loop an answer 429 is always followed by the pause
    [retry_delay * 2^(j-1)]; an answer with a status of 500 or more is
    followed by no pause at all, the next upload being tried at once,
    unless its body text has "rate limit" in it (whatever the case). *)
Theorem upload_pause_by_status
    (retry_delay : Z) (j : nat) (w : world) (code : Z) (text : string)
    (url : option string) :
  0 <= retry_delay -> quiet w ->
  cloudinary w (cloudinary_calls w) = Response code text url ->
  code = 429 \/ 500 <= code ->
  exists w',
    upload_attempt_body retry_delay j w = (Ret None, w')
    /\ cloudinary_calls w' = S (cloudinary_calls w)
    /\ slept w' = slept w ++
         (if (code =? 429) || PyStr.contains "rate limit" (PyStr.lower text)
          then [retry_delay * 2 ^ (Z.of_nat j - 1)] else []).
Proof.
  intros Hd Hq Ha Hcode.
  set (msg := if code =? 429 then "Cloudinary rate limit exceeded: " +:+ text
              else "Cloudinary server error: " +:+ text).
  assert (upload_to_cloudinary w
          = (Raise msg, set_cloudinary_calls (S (cloudinary_calls w)) w)) as Eu.
  { unfold upload_to_cloudinary. rewrite Ha. subst msg.
    destruct (Z.eqb_spec code 200); [lia|].
    destruct (Z.eqb_spec code 429); [done|].
    destruct (Z.leb_spec 500 code); [done | lia]. }
  destruct (upload_attempt_sleeps retry_delay j w _ _ Hd Hq Eu) as (w' & E & Hs).
  exists w'. split_and!; [done | |].
  - destruct (returns_upload_attempt_body retry_delay j Hd w Hq)
      as (a & w'' & E' & Hev).
    rewrite E in E'. injection E' as <- <-.
    pose proof (upload_attempt_budget retry_delay j w _ _ Hd E) as [Hb _].
    revert E. unfold upload_attempt_body, try_except, bind, when, ret.
    rewrite Eu. destruct (upload_rate_limited msg).
    + rewrite sleep_quiet by (by apply backoff_nonneg || done).
      by intros [= <-].
    + by intros [= <-].
  - rewrite Hs. subst msg.
    destruct (code =? 429);
      [rewrite rate_limit_message | rewrite server_error_signature]; done.
Qed.

Lemma upload_pause_by_status_witness :
  let w := Sample2.server_error_world in
  0 <= 5 /\ quiet w
  /\ cloudinary w (cloudinary_calls w) = Response 503 "Service Unavailable" None
  /\ exists w',
       upload_attempt_body 5 2 w = (Ret None, w')
       /\ cloudinary_calls w' = S (cloudinary_calls w)
       /\ slept w' = slept w ++ [].
Proof.
  intros w.
  destruct (upload_pause_by_status 5 2 w 503 "Service Unavailable" None
              ltac:(lia) ltac:(reflexivity) ltac:(reflexivity)
              ltac:(right; lia)) as (w' & E & Hc & Hs).
  split_and!; [lia | reflexivity | reflexivity |].
  exists w'. split_and!; [exact E | exact Hc | exact Hs].
Defined.

(* ===================================================================== *)
(** ** Which files a call touches *)
(* ===================================================================== *)

Lemma keeps_path_exists q p : always (keeps q) (path_exists p).
Proof. by intros w o w' [= <- <-]. Qed.

Lemma keeps_update_stats q f : always (keeps q) (update_stats f).
Proof. by intros w o w' [= <- <-]. Qed.

Lemma keeps_generate_articles q title max_retries retry_delay :
  always (keeps q)
    (Articles.generate_and_upload_image title max_retries retry_delay).
Proof.
  eapply always_weaken; [apply keeps_same_store|].
  apply same_store_generate_articles.
Qed.

Lemma keeps_replace_articles q sl p :
  p <> q -> p +:+ ".bak" <> q ->
  always (keeps q) (Articles.replace_image_in_markdown sl p).
Proof.
  intros Hp Hb. unfold Articles.replace_image_in_markdown.
  repeat first
    [ apply always_ret; apply keeps_refl
    | apply always_raise; apply keeps_refl
    | by apply keeps_write_file
    | apply keeps_read_file
    | apply keeps_path_exists
    | apply keeps_update_stats
    | apply keeps_title_missing
    | apply keeps_get_title
    | apply keeps_generate_articles
    | apply always_bind; [apply keeps_trans | | intros ?]
    | apply always_try; [apply keeps_trans | | intros ?]
    | progress case_match ].
Qed.



(** After the generation: the two writes, by what can be written *)
Ltac after_generation Hf Hw c :=
  first
    [ solve [intros [= <- <-] _; left; simpl; by rewrite Hf]
    | rewrite Hw; simpl;
      destruct (decide (_ ∈ unwritable _));
        [intros [= <- <-] _; left; simpl; by rewrite Hf|];
      simpl; rewrite Hw; simpl;
      destruct (decide (_ ∈ unwritable _)); intros [= <- <-] Hnt; [|done];
      right; eexists _, _, c; simpl; by rewrite Hf ].

Lemma articles_failure_files sl p w o w' :
  Articles.replace_image_in_markdown sl p w = (o, w') ->
  o <> Ret true -> files_after_failure p o w w'.
Proof.
  unfold Articles.replace_image_in_markdown, try_except, bind, path_exists,
    read_file, write_file, update_stats, modify, ret, raise, files_after_failure.
  destruct (bool_decide _); simpl; [|intros [= <- <-]; by left].
  destruct (files w !! p) as [c|]; [|intros [= <- <-]; by left].
  destruct (decide (p ∈ unreadable w)); [intros [= <- <-]; by left|].
  destruct (PyStr.contains _ c); simpl; [|intros [= <- <-]; by left].
  destruct (title_missing _ _) as [[missing|e|] w0] eqn:Em;
    apply title_missing_pure in Em as [-> Hni]; [| |done];
    [|intros [= <- <-]; by left].
  destruct missing.
  - destruct (Articles.title_fallback c) as [t|];
      [|intros [= <- <-]; by left].
    destruct (Articles.generate_and_upload_image _ _ _ _) as [[[url|]|e|] w1] eqn:Eg;
      apply same_store_generate_articles in Eg;
      destruct Eg as (Hf & _ & Hw & _); simpl in Hf;
      after_generation Hf Hw c.
  - destruct (get_title _ _) as [[t|e|] w0] eqn:Et;
      apply get_title_pure in Et as [-> Hni']; [| |done];
      [|intros [= <- <-]; by left].
    destruct (Articles.generate_and_upload_image _ _ _ _) as [[[url|]|e|] w1] eqn:Eg;
      apply same_store_generate_articles in Eg;
      destruct Eg as (Hf & _ & Hw & _); simpl in Hf;
      after_generation Hf Hw c.
Qed.

Lemma replacer_failure_files sl p w o w' :
  Replacer.replace_image_in_markdown sl p w = (o, w') ->
  o <> Ret true -> files_after_failure p o w w'.
Proof.
  unfold Replacer.replace_image_in_markdown, try_except, bind,
    read_file, write_file, ret, raise, files_after_failure.
  destruct (files w !! p) as [c|]; [|intros [= <- <-]; by left].
  destruct (decide (p ∈ unreadable w)); [intros [= <- <-]; by left|].
  destruct (PyStr.contains _ c); simpl; [|intros [= <- <-]; by left].
  destruct (title_missing _ _) as [[missing|e|] w0] eqn:Em;
    apply title_missing_pure in Em as [-> Hni]; [| |done];
    [|intros [= <- <-]; by left].
  destruct missing; [intros [= <- <-]; by left|].
  destruct (get_title _ _) as [[t|e|] w0] eqn:Et;
    apply get_title_pure in Et as [-> Hni']; [| |done];
    [|intros [= <- <-]; by left].
  destruct (Replacer.generate_and_upload_image _ _ _ _) as [[[url|]|e|] w1] eqn:Eg;
    apply same_store_generate_replacer in Eg;
    destruct Eg as (Hf & _ & Hw & _); simpl in Hf;
    after_generation Hf Hw c.
Qed.



(** X7: when generation and upload succeed and the article can be written
    but its backup cannot, both scripts rewrite the article and then raise
    the error of the backup: no backup exists, and generate_articles.py
    counts the file as a failed replacement, not as a successful one,
    although the article now carries the new URL. *)
Theorem unwritable_backup_loses_the_original
    (sl : string -> yaml_result) (p content title url : string)
    (m : gmap string string) (w w1 : world) :
  files w !! p = Some content /\ (p ∉ unreadable w) ->
  (p ∉ unwritable w) /\ (p +:+ ".bak" ∈ unwritable w) ->
  PyStr.contains PLACEHOLDER_IMAGE_URL content = true ->
  (Articles.extract_front_matter sl content).1 = YMap m ->
  m !! "title" = Some title ->
  Replacer.generate_and_upload_image title MAX_RETRIES BASE_RETRY_DELAY w
    = (Ret (Some url), w1) ->
  let rewritten := PyStr.replace PLACEHOLDER_IMAGE_URL url content in
  let files' := <[p := rewritten]> (files w) in
  let error := "[Errno 13] Permission denied: '" +:+ (p +:+ ".bak") +:+ "'" in
  Replacer.replace_image_in_markdown sl p w = (Raise error, set_files files' w1)
  /\ Articles.replace_image_in_markdown sl p w
     = (Raise error,
        set_stats (Articles.inc_failed (Articles.inc_with_placeholders (stats w)))
                  (set_files files' w1))
  /\ files' !! p = Some rewritten
  /\ files' !! (p +:+ ".bak") = files w !! (p +:+ ".bak").
Proof.
  intros [Hfile Hread] [Hw Hb] Hsent Hfm Ht Hgen rewritten files' error.
  pose proof (same_store_generate_replacer _ _ _ _ _ _ Hgen) as (Hf & _ & Hu & _).
  split_and!.
  - unfold Replacer.replace_image_in_markdown, try_except, bind.
    rewrite (read_file_ok _ _ _ Hfile Hread). rewrite Hsent. simpl.
    rewrite (replacer_front_matter _ _ _ Hfm).
    rewrite (title_missing_map _ _ _ Ht).
    rewrite (get_title_map _ _ _ Ht).
    rewrite Hgen.
    rewrite write_file_ok by (by rewrite Hu).
    unfold write_file. simpl. rewrite Hu.
    destruct (decide (p +:+ ".bak" ∈ unwritable w)); [|done].
    unfold raise. by rewrite Hf.
  - unfold Articles.replace_image_in_markdown, try_except, bind.
    rewrite (path_exists_ok _ _ _ Hfile). simpl.
    rewrite (read_file_ok _ _ _ Hfile Hread). rewrite Hsent. simpl.
    rewrite Hfm.
    rewrite (title_missing_map _ _ _ Ht).
    rewrite (get_title_map _ _ _ Ht). simpl.
    rewrite blind_generate_articles, <- generate_and_upload_agree, Hgen.
    simpl.
    rewrite write_file_ok by (by simpl; rewrite Hu).
    unfold write_file. simpl. rewrite Hu.
    destruct (decide (p +:+ ".bak" ∈ unwritable w)); [|done].
    unfold bind, update_stats, modify, raise. simpl. by rewrite Hf.
  - subst files'. by rewrite lookup_insert_eq.
  - subst files'. rewrite lookup_insert_ne; [done|]. apply backup_path_differs.
Qed.

Lemma unwritable_backup_loses_the_original_witness :
  let w := Sample2.locked_backup_world in
  let w1 := (Replacer.generate_and_upload_image "Foo" MAX_RETRIES BASE_RETRY_DELAY w).2 in
  let files' :=
    <[Sample.a_md := PyStr.replace PLACEHOLDER_IMAGE_URL Sample.new_url Sample.doc_foo]>
      (files w) in
  (files w !! Sample.a_md = Some Sample.doc_foo /\ (Sample.a_md ∉ unreadable w))
  /\ ((Sample.a_md ∉ unwritable w) /\ (Sample.a_md +:+ ".bak" ∈ unwritable w))
  /\ Articles.replace_image_in_markdown Sample.safe_load Sample.a_md w
     = (Raise ("[Errno 13] Permission denied: '" +:+ (Sample.a_md +:+ ".bak") +:+ "'"),
        set_stats (Articles.inc_failed (Articles.inc_with_placeholders (stats w)))
                  (set_files files' w1))
  /\ files' !! (Sample.a_md +:+ ".bak") = None.
Proof.
  intros w w1 files'.
  assert (files w !! Sample.a_md = Some Sample.doc_foo /\ (Sample.a_md ∉ unreadable w))
    as Hr by (split; [by vm_compute | set_solver]).
  assert ((Sample.a_md ∉ unwritable w) /\ (Sample.a_md +:+ ".bak" ∈ unwritable w))
    as Hw by (split; [by vm_compute | by vm_compute]).
  assert (PyStr.contains PLACEHOLDER_IMAGE_URL Sample.doc_foo = true) as Hs
    by (by vm_compute).
  assert ((Articles.extract_front_matter Sample.safe_load Sample.doc_foo).1
          = YMap {["title" := "Foo"]}) as Hfm by (by vm_compute).
  assert (({["title" := "Foo"]} : gmap string string) !! "title" = Some "Foo")
    as Ht by (by vm_compute).
  assert (Replacer.generate_and_upload_image "Foo" MAX_RETRIES BASE_RETRY_DELAY w
          = (Ret (Some Sample.new_url), w1)) as Hg by (by vm_compute).
  pose proof (unwritable_backup_loses_the_original Sample.safe_load Sample.a_md
                Sample.doc_foo "Foo" Sample.new_url {["title" := "Foo"]} w w1
                Hr Hw Hs Hfm Ht Hg) as (_ & HA & _ & Hb).
  split_and!; [done..| exact HA |].
  fold files' in Hb. rewrite Hb. by vm_compute.
Defined.

(* ===================================================================== *)
(** ** A listed file that does not exist *)
(* ===================================================================== *)

Lemma startswith_app_char c pat : has_char c pat = false ->
  forall t, PyStr.startswith (t +:+ String c EmptyString) pat = PyStr.startswith t pat.
Proof.
  induction pat as [|a pat IH]; intros Hc t.
  - by destruct t.
  - simpl in Hc. apply orb_false_iff in Hc as [Hac Hc].
    destruct t as [|b t]; simpl.
    + by rewrite Hac.
    + destruct (Ascii.eqb a b); [by apply IH | done].
Qed.

Lemma contains_app_char c pat s :
  has_char c pat = false ->
  PyStr.contains pat (s +:+ String c EmptyString) = PyStr.contains pat s.
Proof.
  intros Hc. induction s as [|b s IH].
  - change (EmptyString +:+ String c EmptyString) with (String c EmptyString).
    rewrite contains_cons.
    change (String c EmptyString) with (EmptyString +:+ String c EmptyString).
    rewrite (startswith_app_char c pat Hc).
    unfold PyStr.contains. rewrite find_from_nil.
    by destruct (PyStr.startswith EmptyString pat).
  - rewrite string_app_cons, !contains_cons, IH.
    rewrite <- string_app_cons. by rewrite (startswith_app_char c pat Hc).
Qed.

(** The message of a missing file has a rate-limit signature exactly when
    the path has one. *)
Lemma missing_file_signature p :
  rate_limited ("[Errno 2] No such file or directory: '" +:+ p +:+ "'")
  = rate_limited p.
Proof.
  unfold rate_limited. rewrite !lower_app.
  change (PyStr.lower "'") with "'".
  change (PyStr.lower "[Errno 2] No such file or directory: '")
    with "[errno 2] no such file or directory: '".
  assert (forall pat,
            has_char "'" pat = false ->
            PyStr.startswith "[errno 2] no such file or directory: '" pat = false ->
            (forall t,
               PyStr.contains pat
                 ("[errno 2] no such file or directory: '" +:+ t)
               = PyStr.contains pat t) ->
            PyStr.contains pat
              ("[errno 2] no such file or directory: '" +:+ PyStr.lower p +:+ "'")
            = PyStr.contains pat (PyStr.lower p)) as H.
  { intros pat Hc _ Hpre. rewrite Hpre. by apply contains_app_char. }
  rewrite !H; try done.
  - intros t. rewrite !string_app_cons, !contains_cons. by vm_compute.
  - intros t. rewrite !string_app_cons, !contains_cons. by vm_compute.
  - intros t. rewrite !string_app_cons, !contains_cons. by vm_compute.
Qed.



(* ===================================================================== *)
(** ** The batch driver over a whole listing *)
(* ===================================================================== *)

Lemma log_grows_refl w : log_grows w w.
Proof. by unfold log_grows. Qed.

Lemma log_grows_trans w1 w2 w3 : log_grows w1 w2 -> log_grows w2 w3 -> log_grows w1 w3.
Proof. unfold log_grows. by intros ? ?; etrans. Qed.

Lemma log_grows_same (w w' : world) : slept w' = slept w -> log_grows w w'.
Proof. unfold log_grows. by intros ->. Qed.

Lemma grows_sleep d : always log_grows (sleep d).
Proof.
  intros w o w'. unfold sleep, log_grows.
  repeat case_match; intros [= <- <-]; simpl; try done; by apply prefix_app_r.
Qed.

Lemma grows_upload : always log_grows upload_to_cloudinary.
Proof.
  intros w o w'. unfold upload_to_cloudinary.
  repeat case_match; intros [= <- <-]; by apply log_grows_same.
Qed.

Lemma grows_generate_content : always log_grows generate_content.
Proof.
  intros w o w'. unfold generate_content.
  repeat case_match; intros [= <- <-]; by apply log_grows_same.
Qed.

Lemma grows_read_file p : always log_grows (read_file p).
Proof.
  intros w o w'. unfold read_file.
  repeat case_match; intros [= <- <-]; by apply log_grows_same.
Qed.

Lemma grows_write_file p c : always log_grows (write_file p c).
Proof.
  intros w o w'. unfold write_file.
  repeat case_match; intros [= <- <-]; by apply log_grows_same.
Qed.

Lemma grows_path_exists p : always log_grows (path_exists p).
Proof. intros w o w' [= <- <-]. by apply log_grows_same. Qed.

Lemma grows_update_stats f : always log_grows (update_stats f).
Proof. intros w o w' [= <- <-]. by apply log_grows_same. Qed.

Lemma grows_title_missing d : always log_grows (title_missing d).
Proof.
  intros w o w' E. apply title_missing_pure in E as [-> _]. apply log_grows_refl.
Qed.

Lemma grows_get_title d : always log_grows (get_title d).
Proof.
  intros w o w' E. apply get_title_pure in E as [-> _]. apply log_grows_refl.
Qed.

Ltac grows_steps :=
  repeat first
    [ apply always_ret; apply log_grows_refl
    | apply always_raise; apply log_grows_refl
    | apply grows_sleep
    | apply grows_upload
    | apply grows_generate_content
    | apply grows_read_file
    | apply grows_write_file
    | apply grows_path_exists
    | apply grows_update_stats
    | apply grows_title_missing
    | apply grows_get_title
    | apply always_when; [apply log_grows_refl |]
    | apply always_bind; [apply log_grows_trans | | intros ?]
    | apply always_try; [apply log_grows_trans | | intros ?]
    | apply always_for_first;
        [apply log_grows_refl | apply log_grows_trans | intros ?]
    | progress case_match ].

Lemma grows_replace_articles sl p :
  always log_grows (Articles.replace_image_in_markdown sl p).
Proof.
  unfold Articles.replace_image_in_markdown, Articles.generate_and_upload_image,
    Articles.generation_attempt, generation_handler, generation_fallthrough,
    save_and_upload, upload_with_retries, upload_attempt_body.
  grows_steps.
Qed.

Lemma grows_replace_replacer sl p :
  always log_grows (Replacer.replace_image_in_markdown sl p).
Proof.
  unfold Replacer.replace_image_in_markdown, Replacer.generate_and_upload_image,
    Replacer.generation_attempt, generation_handler, generation_fallthrough,
    save_and_upload, upload_with_retries, upload_attempt_body.
  grows_steps.
Qed.

Lemma driver_transition_step current_delay failures o :
  o <> Interrupt -> 3 <= current_delay <= 60 -> 0 <= failures <= 2 ->
  forall delay count pauses,
    driver_transition current_delay failures o = (delay, count, pauses) ->
    3 <= delay <= 60 /\ 0 <= count <= 2 /\ (1 <= length pauses)%nat.
Proof.
  intros Hni Hd Hf delay count pauses. unfold driver_transition, SUCCESS_DELAY.
  destruct o as [[|]|e|]; [| | |done]; simpl;
    repeat case_match; intros [= <- <- <-]; simpl; lia.
Qed.

Lemma articles_loop_invariant sl fs : forall l w,
  quiet w ->
  3 <= Articles.current_delay l <= 60 ->
  0 <= Articles.consecutive_failures l <= 2 ->
  exists l' w',
    Articles.process_files sl fs (l, w) = (Ret tt, (l', w'))
    /\ 3 <= Articles.current_delay l' <= 60
    /\ 0 <= Articles.consecutive_failures l' <= 2
    /\ (length (slept w) + length fs <= length (slept w'))%nat.
Proof.
  unfold Articles.process_files.
  induction fs as [|f fs IH]; intros l w Hq Hd Hf.
  - exists l, w. simpl. split_and!; try done; lia.
  - destruct (calm_replace_articles sl f w Hq) as (o & w1 & E & Hni & Hq1).
    pose proof (articles_process_file_spec sl f l w o w1 E Hni Hq1
                  ltac:(lia)) as Hstep.
    pose proof (grows_replace_articles sl f w o w1 E) as Hg.
    destruct (driver_transition _ _ o) as [[delay count] pauses] eqn:Et.
    destruct (driver_transition_step _ _ o Hni Hd Hf _ _ _ Et) as (Hd' & Hf' & Hp).
    destruct (IH (Articles.Locals delay count) (set_slept (slept w1 ++ pauses) w1))
      as (l' & w' & E' & Hd'' & Hf'' & Hlen); [done..|].
    apply prefix_length in Hg. simpl in Hlen. rewrite length_app in Hlen.
    exists l', w'. simpl. unfold bind. rewrite Hstep.
    split_and!; try done; lia.
Qed.

Lemma replacer_loop_invariant sl fs : forall l w,
  quiet w ->
  3 <= Replacer.current_delay l <= 60 ->
  0 <= Replacer.consecutive_failures l <= 2 ->
  exists l' w',
    Replacer.process_files sl fs (l, w) = (Ret tt, (l', w'))
    /\ 3 <= Replacer.current_delay l' <= 60
    /\ 0 <= Replacer.consecutive_failures l' <= 2
    /\ (length (slept w) + length fs <= length (slept w'))%nat
    /\ Replacer.success_count l' + Z.of_nat (length (Replacer.failed_files l'))
       = Replacer.success_count l + Z.of_nat (length (Replacer.failed_files l))
         + Z.of_nat (length fs)
    /\ Replacer.success_count l <= Replacer.success_count l'
    /\ Replacer.failed_files l `prefix_of` Replacer.failed_files l'.
Proof.
  unfold Replacer.process_files.
  induction fs as [|f fs IH]; intros l w Hq Hd Hf.
  - exists l, w. simpl. split_and!; try done; lia.
  - destruct (calm_replace_replacer sl f w Hq) as (o & w1 & E & Hni & Hq1).
    pose proof (replacer_process_file_spec sl f l w o w1 E Hni Hq1
                  ltac:(lia)) as Hstep.
    pose proof (grows_replace_replacer sl f w o w1 E) as Hg.
    destruct (driver_transition _ _ o) as [[delay count] pauses] eqn:Et.
    destruct (driver_transition_step _ _ o Hni Hd Hf _ _ _ Et) as (Hd' & Hf' & Hp).
    set (sc := match o with
               | Ret true => Replacer.success_count l + 1
               | _ => Replacer.success_count l
               end) in *.
    set (ff := match o with
               | Ret true => Replacer.failed_files l
               | _ => Replacer.failed_files l ++ [PyStr.basename f]
               end) in *.
    destruct (IH (Replacer.Locals sc ff delay count)
                 (set_slept (slept w1 ++ pauses) w1))
      as (l' & w' & E' & Hd'' & Hf'' & Hlen & Hacc & Hsc & Hff); [done..|].
    exists l', w'. simpl. unfold bind. rewrite Hstep.
    apply prefix_length in Hg. simpl in Hlen, Hacc, Hsc, Hff.
    rewrite length_app in Hlen.
    split_and!; try done; try lia.
    + rewrite Hacc. subst sc ff. destruct o as [[|]|e|]; try done;
        rewrite ?length_app; simpl; lia.
    + subst sc. destruct o as [[|]|e|]; try done; lia.
    + subst ff. destruct o as [[|]|e|]; try done;
        (etrans; [|exact Hff]); by apply prefix_app_r.
Qed.

(** X9: short of a user interrupt, the batch loop of both scripts goes
    through the whole listing; after it, as between any two files,
    [current_delay] lies between its base 3 and its cap 60 and
    [consecutive_failures] is below the threshold 3; the driver pauses at
    least once for every file, the last one included. *)
Theorem driver_keeps_its_bounds
    (sl : string -> yaml_result) (fs : list string) (w : world) :
  quiet w ->
  (exists l' w',
     Articles.process_files sl fs (Articles.locals0, w) = (Ret tt, (l', w'))
     /\ 3 <= Articles.current_delay l' <= 60
     /\ 0 <= Articles.consecutive_failures l' <= 2
     /\ (length (slept w) + length fs <= length (slept w'))%nat)
  /\ (exists l' w',
        Replacer.process_files sl fs (Replacer.locals0, w) = (Ret tt, (l', w'))
        /\ 3 <= Replacer.current_delay l' <= 60
        /\ 0 <= Replacer.consecutive_failures l' <= 2
        /\ (length (slept w) + length fs <= length (slept w'))%nat).
Proof.
  intros Hq. split.
  - by apply articles_loop_invariant.
  - destruct (replacer_loop_invariant sl fs Replacer.locals0 w Hq)
      as (l' & w' & E & Hd & Hf & Hlen & _); [done..|].
    by exists l', w'.
Qed.

Lemma driver_keeps_its_bounds_witness :
  let w := Sample2.two_articles Sample.rate_limit_answer in
  let fs := [Sample.a_md; "generated-articles/b.md"; "generated-articles/c.md"] in
  quiet w
  /\ exists l' w',
       Replacer.process_files Sample.safe_load fs (Replacer.locals0, w)
       = (Ret tt, (l', w'))
       /\ 3 <= Replacer.current_delay l' <= 60
       /\ 0 <= Replacer.consecutive_failures l' <= 2
       /\ (length (slept w) + length fs <= length (slept w'))%nat.
Proof.
  intros w fs. split; [reflexivity|].
  exact (proj2 (driver_keeps_its_bounds Sample.safe_load fs w eq_refl)).
Defined.

(** X10: placeholder_image_replacer.py accounts for every listed file:
    after a batch that was not interrupted, the count of successes and the
    number of names in [failed_files] add up to the number of files; with
    an empty listing the function returns at once and does nothing. *)
Theorem replacer_accounts_for_every_file
    (sl : string -> yaml_result) (fs : list string) (w : world) :
  quiet w ->
  Replacer.process_all_markdown_files sl [] w = (Ret None, w)
  /\ (fs <> [] ->
      exists l w',
        Replacer.process_all_markdown_files sl fs w = (Ret (Some l), w')
        /\ 0 <= Replacer.success_count l
        /\ Replacer.success_count l + Z.of_nat (length (Replacer.failed_files l))
           = Z.of_nat (length fs)).
Proof.
  intros Hq. split; [done|]. intros Hfs.
  destruct (replacer_loop_invariant sl fs Replacer.locals0 w Hq)
    as (l' & w' & E & _ & _ & _ & Hacc & Hsc & _); [done..|].
  exists l', w'. unfold Replacer.process_all_markdown_files.
  destruct fs as [|f fs]; [done|]. rewrite E.
  change (Replacer.success_count Replacer.locals0) with 0 in Hacc, Hsc.
  change (Replacer.failed_files Replacer.locals0) with (@nil string) in Hacc.
  change (Z.of_nat (length (@nil string))) with 0 in Hacc.
  split_and!; [done | done | lia].
Qed.

Lemma replacer_accounts_for_every_file_witness :
  let w := Sample2.two_articles Sample.ok_answer in
  let fs := [Sample.a_md; "generated-articles/b.md"; "generated-articles/c.md"] in
  quiet w /\ fs <> []
  /\ exists l w',
       Replacer.process_all_markdown_files Sample.safe_load fs w = (Ret (Some l), w')
       /\ 0 <= Replacer.success_count l
       /\ Replacer.success_count l + Z.of_nat (length (Replacer.failed_files l))
          = Z.of_nat (length fs).
Proof.
  intros w fs. split_and!; [reflexivity | done |].
  exact (proj2 (replacer_accounts_for_every_file Sample.safe_load fs w eq_refl)
               ltac:(done)).
Defined.

(* --------------------------------------------------------------------- *)
(** *** The metadata block as the two scripts cut it *)

Lemma take_drop n : forall s, PyStr.take n s +:+ PyStr.drop n s = s.
Proof.
  induction n as [|n IH]; intros [|c s]; try done.
  cbn [PyStr.take PyStr.drop]. rewrite string_app_cons. by rewrite IH.
Qed.

Lemma leading_space_lstrip s : leading_space s +:+ PyStr.lstrip s = s.
Proof.
  induction s as [|c s IH]; [done|]. cbn [leading_space PyStr.lstrip].
  destruct (PyStr.is_space c); [|done].
  rewrite string_app_cons. by rewrite IH.
Qed.

(** X11: whenever [extract_front_matter] of generate_articles.py returns a
    metadata block, the document is a mapping and
    placeholder_image_replacer.py reads the same document from the same
    text; the block of generate_articles.py opens the file and ends with
    the closing marker, and the block of the other script is the same block
    with the white space that follows it. *)
Theorem front_matter_seen_by_both
    (sl : string -> yaml_result) (content : string) (d : yaml_doc)
    (full : string) :
  Articles.extract_front_matter sl content = (d, Some full) ->
  is_dict d = true
  /\ exists sp rest,
       content = full +:+ sp +:+ rest
       /\ leading_space (sp +:+ rest) = sp
       /\ PyStr.lstrip (sp +:+ rest) = rest
       /\ Replacer.extract_front_matter sl content = (d, Some (full +:+ sp)).
Proof.
  unfold Articles.extract_front_matter, Replacer.extract_front_matter,
    Replacer.search_front_matter, closing_marker.
  destruct (PyStr.startswith content "---"); [|done]. cbn [negb]. cbv zeta.
  destruct (PyStr.find "---" content 3) as [p|]; [|done].
  destruct (sl _) as [e|fm]; [done|].
  destruct (yaml_truthy fm); [|done].
  destruct (is_dict fm) eqn:Hd; [|done]. cbn [andb].
  intros [= <- <-]. split; [done|].
  set (tail := PyStr.drop (p + 3) content).
  assert (leading_space tail +:+ PyStr.lstrip tail = tail) as Ht
    by apply leading_space_lstrip.
  exists (leading_space tail), (PyStr.lstrip tail).
  rewrite Ht. split_and!; try done.
  subst tail. by rewrite take_drop.
Qed.

Lemma front_matter_seen_by_both_witness :
  exists d full,
    Articles.extract_front_matter Sample.safe_load Sample.doc_foo = (d, Some full)
    /\ is_dict d = true
    /\ exists sp rest,
         Sample.doc_foo = full +:+ sp +:+ rest
         /\ leading_space (sp +:+ rest) = sp
         /\ PyStr.lstrip (sp +:+ rest) = rest
         /\ Replacer.extract_front_matter Sample.safe_load Sample.doc_foo
            = (d, Some (full +:+ sp)).
Proof.
  eexists _, _. split; [by vm_compute|].
  apply (front_matter_seen_by_both Sample.safe_load Sample.doc_foo).
  by vm_compute.
Defined.

(* --------------------------------------------------------------------- *)
(** *** The title that the regex fallback finds *)

Lemma line_of_one_line s : has_char PyStr.newline (PyStr.line_of s) = false.
Proof.
  induction s as [|c s IH]; [done|]. cbn [PyStr.line_of].
  destruct (PyStr.is_newline c) eqn:E; [done|].
  cbn [has_char]. unfold PyStr.is_newline in E. by rewrite E.
Qed.

Lemma title_group_one_line : forall s g,
  Articles.title_group s = Some g -> has_char PyStr.newline g = false.
Proof.
  induction s as [|c s IH]; intros g; [done|]. cbn [Articles.title_group].
  destruct (PyStr.is_space c).
  - destruct (Articles.title_group s) as [g'|].
    + intros [= <-]. by apply IH.
    + destruct (PyStr.is_newline c); [done|].
      intros [= <-]. apply (line_of_one_line (String c s)).
  - intros [= <-]. apply (line_of_one_line (String c s)).
Qed.

Lemma search_title_one_line : forall s b g,
  Articles.search_title b s = Some g -> has_char PyStr.newline g = false.
Proof.
  induction s as [|c s IH]; intros b g; [done|]. cbn [Articles.search_title].
  destruct (if b && _ then _ else _) as [g'|] eqn:E.
  - intros [= <-]. destruct (b && _); [|done].
    by apply title_group_one_line in E.
  - apply IH.
Qed.

Lemma search_title_marker : forall s b g,
  Articles.search_title b s = Some g -> PyStr.contains "title:" s = true.
Proof.
  induction s as [|c s IH]; intros b g; [done|]. cbn [Articles.search_title].
  rewrite contains_cons.
  destruct (b && PyStr.startswith (String c s) "title:") eqn:E.
  - apply andb_prop in E as [_ ->]. done.
  - intros H. apply IH in H. rewrite H. by rewrite orb_true_r.
Qed.

Lemma lstrip_has_char c s :
  has_char c s = false -> has_char c (PyStr.lstrip s) = false.
Proof.
  induction s as [|a s IH]; [done|]. cbn [PyStr.lstrip].
  destruct (PyStr.is_space a); [|done].
  cbn [has_char]. intros H. apply orb_false_elim in H as [_ H]. by apply IH.
Qed.

Lemma rstrip_has_char c s :
  has_char c s = false -> has_char c (PyStr.rstrip s) = false.
Proof.
  induction s as [|a s IH]; [done|]. cbn [PyStr.rstrip has_char].
  intros H. apply orb_false_elim in H as [Ha H]. specialize (IH H).
  destruct (PyStr.rstrip s) as [|b r].
  - destruct (PyStr.is_space a); [done|]. cbn [has_char]. by rewrite Ha.
  - cbn [has_char] in *. by rewrite Ha, IH.
Qed.

Lemma rstrip_idem s : PyStr.rstrip (PyStr.rstrip s) = PyStr.rstrip s.
Proof.
  induction s as [|a s IH]; [done|]. cbn [PyStr.rstrip].
  destruct (PyStr.rstrip s) as [|b r] eqn:E.
  - destruct (PyStr.is_space a) eqn:Ea; [done|].
    cbn [PyStr.rstrip]. by rewrite Ea.
  - cbn [PyStr.rstrip] in *. change (PyStr.rstrip (String b r)) with
      (match PyStr.rstrip r with
       | EmptyString => if PyStr.is_space b then EmptyString
                        else String b EmptyString
       | r0 => String b r0
       end) in IH.
    by rewrite IH.
Qed.

(** A text without white space at its head: what [lstrip] leaves *)
Lemma lstrip_head s :
  match PyStr.lstrip s with
  | EmptyString => True
  | String c _ => PyStr.is_space c = false
  end.
Proof.
  induction s as [|a s IH]; [done|]. cbn [PyStr.lstrip].
  by destruct (PyStr.is_space a) eqn:E.
Qed.

Lemma lstrip_rstrip s :
  match s with
  | EmptyString => True
  | String c _ => PyStr.is_space c = false
  end ->
  PyStr.lstrip (PyStr.rstrip s) = PyStr.rstrip s.
Proof.
  destruct s as [|a s]; [done|]. intros Ha. cbn [PyStr.rstrip].
  destruct (PyStr.rstrip s); rewrite ?Ha; cbn [PyStr.lstrip]; by rewrite Ha.
Qed.

Lemma strip_idem s : PyStr.strip (PyStr.strip s) = PyStr.strip s.
Proof.
  unfold PyStr.strip.
  rewrite (lstrip_rstrip (PyStr.lstrip s) (lstrip_head s)).
  apply rstrip_idem.
Qed.

(** X12: the title that the regex fallback of generate_articles.py hands
    to the image generation is one line without white space at either end
    (stripping it again changes nothing, and it holds no line feed), and it
    is only found in a text that holds [title:]. *)
Theorem fallback_title_is_one_stripped_line (content t : string) :
  Articles.title_fallback content = Some t ->
  has_char PyStr.newline t = false
  /\ PyStr.strip t = t
  /\ PyStr.contains "title:" content = true.
Proof.
  unfold Articles.title_fallback.
  destruct (Articles.search_title true content) as [g|] eqn:E; [|done].
  intros [= <-]. split_and!.
  - unfold PyStr.strip. apply rstrip_has_char, lstrip_has_char.
    by eapply search_title_one_line.
  - apply strip_idem.
  - by eapply search_title_marker.
Qed.

Lemma fallback_title_is_one_stripped_line_witness :
  Articles.title_fallback Sample.doc_bare_title = Some "Foo"
  /\ has_char PyStr.newline "Foo" = false
  /\ PyStr.strip "Foo" = "Foo"
  /\ PyStr.contains "title:" Sample.doc_bare_title = true.
Proof.
  split; [by vm_compute|].
  apply (fallback_title_is_one_stripped_line Sample.doc_bare_title "Foo").
  by vm_compute.
Defined.
